(** * attiny-rfid-tag: the EM4102 emulator of [firmware/avrfid.S] and the
      selector loop of [firmware/test.c]

    The assembly module is a set of assembler macros that expand, at build
    time, into straight-line sequences of subroutine calls.  The embedding
    follows that structure:

    - the preprocessor macros [ROW_PARITY] and [COLUMN_PARITY0..2] are
      functions on [Z] (assembler integers), written with the bit operations
      of the source;
    - the assembler macros [delay], [manchester], [baseband_0], [baseband_1],
      [header], [stop_bit] are functions returning the list of instructions
      they expand to;
    - the labelled code ([emulateid0..2], [baseband30_0], [baseband30_1],
      [baseband30]) is laid out in one text section, and a small AVR machine
      (program counter, return stack, [r16], [DDRB], a cycle counter and the
      log of the writes to [DDRB]) executes it;
    - [loop] of test.c polls [PINB] and dispatches.

    The header [id.h] (the identifier constants) is not part of the sources
    at hand; its five constants are the fields of the record [id_h], and
    every statement is for an arbitrary such record. *)

From Equations Require Import Equations.
From Stdlib Require Import ZArith List Bool Lia.
Import ListNotations.

Local Open Scope Z_scope.

(** ** The identifier constants of [id.h]

    The constants are integer literals that the assembler reads as 64-bit
    integers; the model on [Z] is that of the code for constants from 0 to
    2^64 - 1 ([asm_int] below).  A literal beyond that range is not a
    constant the assembler accepts as written, and no statement below is
    meant for one. *)

Record id_h : Type := mk_id_h {
  EM4102_MFR_ID     : Z;
  EM4102_UNIQUE_ID0 : Z;
  EM4102_UNIQUE_ID1 : Z;
  EM4102_MFR_ID2    : Z;
  EM4102_UNIQUE_ID2 : Z
}.

(** ** avr/io.h: bit numbers of port B and [_BV] *)

Definition _BV (bit : Z) : Z := Z.shiftl 1 bit.
Definition PINB0 : Z := 0.
Definition PINB1 : Z := 1.
Definition PINB2 : Z := 2.
Definition PINB3 : Z := 3.
Definition PINB4 : Z := 4.

(** [#define OUT_PINS _BV(PINB3) | _BV(PINB4)] *)
Definition OUT_PINS : Z := Z.lor (_BV PINB3) (_BV PINB4).

(** ** Parity macros

    The C preprocessor expands these into the operands of the assembler
    macros, and the assembler evaluates them on its integers.  They are
    modelled on [Z], for constants within the assembler's 64-bit integers;
    only bits 0..7 of a manufacturer code and bits 0..31 of a unique code
    ever reach the assembled code ([sent_bits_truncate] below). *)

(** [#define ROW_PARITY(n) ( (((n) & 0xF) << 1) |
                             (((n) ^ ((n) >> 1) ^ ((n) >> 2) ^ ((n) >> 3)) & 1) )] *)
Definition ROW_PARITY (n : Z) : Z :=
  Z.lor (Z.shiftl (Z.land n 0xF) 1)
        (Z.land (Z.lxor (Z.lxor (Z.lxor n (Z.shiftr n 1)) (Z.shiftr n 2))
                        (Z.shiftr n 3)) 1).

Section Constants.

Variable ids : id_h.

Local Abbreviation MFR := (EM4102_MFR_ID ids).
Local Abbreviation MFR2 := (EM4102_MFR_ID2 ids).
Local Abbreviation UID0 := (EM4102_UNIQUE_ID0 ids).
Local Abbreviation UID1 := (EM4102_UNIQUE_ID1 ids).
Local Abbreviation UID2 := (EM4102_UNIQUE_ID2 ids).

Definition COLUMN_PARITY0 : Z :=
  Z.lxor (Z.lxor (Z.lxor (Z.lxor (Z.lxor (Z.lxor (Z.lxor (Z.lxor (Z.lxor
    (Z.shiftr MFR 4)
    MFR)
    (Z.shiftr UID0 28))
    (Z.shiftr UID0 24))
    (Z.shiftr UID0 20))
    (Z.shiftr UID0 16))
    (Z.shiftr UID0 12))
    (Z.shiftr UID0 8))
    (Z.shiftr UID0 4))
    UID0.

Definition COLUMN_PARITY1 : Z :=
  Z.lxor (Z.lxor (Z.lxor (Z.lxor (Z.lxor (Z.lxor (Z.lxor (Z.lxor (Z.lxor
    (Z.shiftr MFR 4)
    MFR)
    (Z.shiftr UID1 28))
    (Z.shiftr UID1 24))
    (Z.shiftr UID1 20))
    (Z.shiftr UID1 16))
    (Z.shiftr UID1 12))
    (Z.shiftr UID1 8))
    (Z.shiftr UID1 4))
    UID1.

Definition COLUMN_PARITY2 : Z :=
  Z.lxor (Z.lxor (Z.lxor (Z.lxor (Z.lxor (Z.lxor (Z.lxor (Z.lxor (Z.lxor
    (Z.shiftr MFR2 4)
    MFR2)
    (Z.shiftr UID2 28))
    (Z.shiftr UID2 24))
    (Z.shiftr UID2 20))
    (Z.shiftr UID2 16))
    (Z.shiftr UID2 12))
    (Z.shiftr UID2 8))
    (Z.shiftr UID2 4))
    UID2.

End Constants.

(** ** Instructions

    Only six AVR instructions occur.  [ldi] and [out] are only ever used
    with [r16] and [DDRB]; [rjmp .+0] (a jump to the next instruction, used
    as a two-cycle no-op) is kept apart from a jump to a label. *)

Inductive label : Type :=
| emulateid0_lbl | emulateid1_lbl | emulateid2_lbl
| baseband30_0_lbl | baseband30_1_lbl | baseband30_lbl.

Inductive instr : Type :=
| ldi_r16 (K : Z)          (* ldi  r16, K                 *)
| out_DDRB_r16             (* out  _SFR_IO_ADDR(DDRB), r16 *)
| nop
| rjmp_dot                 (* rjmp .+0                    *)
| rjmp (l : label)
| rcall (l : label)
| ret.

(** ** Assembler macros *)

(** [.macro delay cycles]: [rjmp .+0] while more than one cycle is left,
    one [nop] for an odd remainder. *)
Equations? delay (cycles : Z) : list instr by wf (Z.to_nat cycles) lt :=
  delay cycles with Z_gt_dec cycles 1 => {
    | left _ := rjmp_dot :: delay (cycles - 2);
    | right _ with Z_gt_dec cycles 0 => {
        | left _ := nop :: delay (cycles - 1);
        | right _ := [] } }.
Proof. all: lia. Qed.

(** [.macro baseband_0] and [.macro baseband_1] *)
Definition baseband_0 : list instr := [rcall baseband30_0_lbl; rjmp_dot].
Definition baseband_1 : list instr := [rcall baseband30_1_lbl; rjmp_dot].

(** [.macro manchester bit, count=1].  [count] is an assembly-time counter,
    a natural number at every use; [.if \count] tests it against zero and
    [.if \bit & 1] tests the low bit of the field.  The source uses the
    widths 1, 4, 5 and 9; [Z.shiftr] is the assembler's shift of a 64-bit
    integer for fields from 0 to 2^64 - 1 and widths up to 64. *)
Fixpoint manchester (bit : Z) (count : nat) : list instr :=
  match count with
  | O => []
  | S count' =>
      manchester (Z.shiftr bit 1) count' ++
      (if negb (Z.land bit 1 =? 0)
       then baseband_1 ++ baseband_0
       else baseband_0 ++ baseband_1)
  end.

Definition stop_bit : list instr := manchester 0 1.
Definition header : list instr := manchester 0x1FF 9.

(** ** The labelled code *)

Section Text.

Variable ids : id_h.

Local Abbreviation MFR := (EM4102_MFR_ID ids).
Local Abbreviation MFR2 := (EM4102_MFR_ID2 ids).
Local Abbreviation UID0 := (EM4102_UNIQUE_ID0 ids).
Local Abbreviation UID1 := (EM4102_UNIQUE_ID1 ids).
Local Abbreviation UID2 := (EM4102_UNIQUE_ID2 ids).

Definition emulateid0 : list instr :=
  header ++
  manchester (ROW_PARITY (Z.shiftr MFR 4)) 5 ++
  manchester (ROW_PARITY (Z.shiftr MFR 0)) 5 ++
  manchester (ROW_PARITY (Z.shiftr UID0 28)) 5 ++
  manchester (ROW_PARITY (Z.shiftr UID0 24)) 5 ++
  manchester (ROW_PARITY (Z.shiftr UID0 20)) 5 ++
  manchester (ROW_PARITY (Z.shiftr UID0 16)) 5 ++
  manchester (ROW_PARITY (Z.shiftr UID0 12)) 5 ++
  manchester (ROW_PARITY (Z.shiftr UID0 8)) 5 ++
  manchester (ROW_PARITY (Z.shiftr UID0 4)) 5 ++
  manchester (ROW_PARITY (Z.shiftr UID0 0)) 5 ++
  manchester (COLUMN_PARITY0 ids) 4 ++
  stop_bit ++
  [rjmp emulateid0_lbl].

Definition emulateid1 : list instr :=
  header ++
  manchester (ROW_PARITY (Z.shiftr MFR 4)) 5 ++
  manchester (ROW_PARITY (Z.shiftr MFR 0)) 5 ++
  manchester (ROW_PARITY (Z.shiftr UID1 28)) 5 ++
  manchester (ROW_PARITY (Z.shiftr UID1 24)) 5 ++
  manchester (ROW_PARITY (Z.shiftr UID1 20)) 5 ++
  manchester (ROW_PARITY (Z.shiftr UID1 16)) 5 ++
  manchester (ROW_PARITY (Z.shiftr UID1 12)) 5 ++
  manchester (ROW_PARITY (Z.shiftr UID1 8)) 5 ++
  manchester (ROW_PARITY (Z.shiftr UID1 4)) 5 ++
  manchester (ROW_PARITY (Z.shiftr UID1 0)) 5 ++
  manchester (COLUMN_PARITY1 ids) 4 ++
  stop_bit ++
  [rjmp emulateid1_lbl].

Definition emulateid2 : list instr :=
  header ++
  manchester (ROW_PARITY (Z.shiftr MFR2 4)) 5 ++
  manchester (ROW_PARITY (Z.shiftr MFR2 0)) 5 ++
  manchester (ROW_PARITY (Z.shiftr UID2 28)) 5 ++
  manchester (ROW_PARITY (Z.shiftr UID2 24)) 5 ++
  manchester (ROW_PARITY (Z.shiftr UID2 20)) 5 ++
  manchester (ROW_PARITY (Z.shiftr UID2 16)) 5 ++
  manchester (ROW_PARITY (Z.shiftr UID2 12)) 5 ++
  manchester (ROW_PARITY (Z.shiftr UID2 8)) 5 ++
  manchester (ROW_PARITY (Z.shiftr UID2 4)) 5 ++
  manchester (ROW_PARITY (Z.shiftr UID2 0)) 5 ++
  manchester (COLUMN_PARITY2 ids) 4 ++
  stop_bit ++
  [rjmp emulateid2_lbl].

Definition baseband30_0 : list instr :=
  [ldi_r16 0; rjmp baseband30_lbl].

Definition baseband30_1 : list instr :=
  [ldi_r16 OUT_PINS; rjmp baseband30_lbl].

Definition baseband30 : list instr :=
  [out_DDRB_r16] ++ delay 19 ++ [ret].

(** The text section, in source order. *)
Definition text : list instr :=
  emulateid0 ++ emulateid1 ++ emulateid2 ++
  baseband30_0 ++ baseband30_1 ++ baseband30.

(** Addresses of the labels (in instruction words from the start of the
    section; every instruction used is one word long). *)
Definition addr (l : label) : nat :=
  match l with
  | emulateid0_lbl => 0
  | emulateid1_lbl => length emulateid0
  | emulateid2_lbl => length emulateid0 + length emulateid1
  | baseband30_0_lbl =>
      length emulateid0 + length emulateid1 + length emulateid2
  | baseband30_1_lbl =>
      length emulateid0 + length emulateid1 + length emulateid2 +
      length baseband30_0
  | baseband30_lbl =>
      length emulateid0 + length emulateid1 + length emulateid2 +
      length baseband30_0 + length baseband30_1
  end%nat.

End Text.

(** ** The machine

    The program counter counts instruction words from the start of the text
    section, the stack holds return addresses, [clk] counts clock cycles
    (the carrier periods), and [log] records every write to [DDRB] with the
    clock value at which the write completes. *)

Record cpu : Type := mk_cpu {
  pc    : nat;
  stack : list nat;
  r16   : Z;
  DDRB  : Z;
  clk   : Z;
  log   : list (Z * Z)
}.

(** Clock cycles per instruction (devices with a 16-bit program counter),
    as annotated in the source: [ldi] 1, [out] 1, [nop] 1, [rjmp] 2,
    [rcall] 3, [ret] 4. *)
Definition cycles_of (i : instr) : Z :=
  match i with
  | ldi_r16 _ => 1
  | out_DDRB_r16 => 1
  | nop => 1
  | rjmp_dot => 2
  | rjmp _ => 2
  | rcall _ => 3
  | ret => 4
  end.

Fixpoint cost (l : list instr) : Z :=
  match l with
  | [] => 0
  | i :: l' => cycles_of i + cost l'
  end.

Inductive slot : Type := slot0 | slot1 | slot2.

Definition entry (sl : slot) : label :=
  match sl with
  | slot0 => emulateid0_lbl
  | slot1 => emulateid1_lbl
  | slot2 => emulateid2_lbl
  end.

Section Machine.

Variable ids : id_h.

Definition code_of (l : label) : list instr :=
  match l with
  | emulateid0_lbl => emulateid0 ids
  | emulateid1_lbl => emulateid1 ids
  | emulateid2_lbl => emulateid2 ids
  | baseband30_0_lbl => baseband30_0
  | baseband30_1_lbl => baseband30_1
  | baseband30_lbl => baseband30
  end.

Definition exec (i : instr) (s : cpu) : option cpu :=
  let t := clk s + cycles_of i in
  match i with
  | ldi_r16 K =>
      Some (mk_cpu (pc s + 1) (stack s) K (DDRB s) t (log s))
  | out_DDRB_r16 =>
      Some (mk_cpu (pc s + 1) (stack s) (r16 s) (r16 s) t
                   (log s ++ [(t, r16 s)]))
  | nop | rjmp_dot =>
      Some (mk_cpu (pc s + 1) (stack s) (r16 s) (DDRB s) t (log s))
  | rjmp l =>
      Some (mk_cpu (addr ids l) (stack s) (r16 s) (DDRB s) t (log s))
  | rcall l =>
      Some (mk_cpu (addr ids l) ((pc s + 1)%nat :: stack s)
                   (r16 s) (DDRB s) t (log s))
  | ret =>
      match stack s with
      | [] => None
      | ra :: st => Some (mk_cpu ra st (r16 s) (DDRB s) t (log s))
      end
  end.

(** One instruction: fetch at [pc], execute.  [None] when [pc] is outside
    the text section or [ret] finds no return address. *)
Definition step (s : cpu) : option cpu :=
  match nth_error (text ids) (pc s) with
  | Some i => exec i s
  | None => None
  end.

Fixpoint run (n : nat) (s : cpu) : option cpu :=
  match n with
  | O => Some s
  | S n' =>
      match step s with
      | Some s' => run n' s'
      | None => None
      end
  end.

(** What the machine wrote to [DDRB] during the next [n] instructions. *)
Definition emitted (n : nat) (s : cpu) : list (Z * Z) :=
  match run n s with
  | Some s' => skipn (length (log s)) (log s')
  | None => []
  end.

End Machine.

(** ** The selector loop of test.c

    [PINB] is a volatile input register: every evaluation of [PINB] reads
    the pins anew.  [pins t] is the value of the [t]-th read.  A call to
    [emulateidN] does not come back, so
    [loop] either dispatches to a slot or returns having read three times. *)

Inductive loop_result : Type :=
| Dispatch (sl : slot) (reads : nat)
| Return (reads : nat).

(** [!(PINB & _BV(PINBn))] *)
Definition pressed (pinb bit : Z) : bool := Z.land pinb (_BV bit) =? 0.

Definition loop (pins : nat -> Z) (t : nat) : loop_result :=
  if pressed (pins t) PINB0 then Dispatch slot0 (t + 1)
  else if pressed (pins (t + 1)%nat) PINB1 then Dispatch slot1 (t + 2)
  else if pressed (pins (t + 2)%nat) PINB2 then Dispatch slot2 (t + 3)
  else Return (t + 3).

(** [while(1) { loop(); }], cut after [n] rounds. *)
Fixpoint main_loop (n : nat) (pins : nat -> Z) (t : nat) : loop_result :=
  match n with
  | O => Return t
  | S n' =>
      match loop pins t with
      | Dispatch sl t' => Dispatch sl t'
      | Return t' => main_loop n' pins t'
      end
  end.

(** The state in which a packet assembler starts: the C code has executed
    its call instruction, which pushed the return address [ra] (an address
    in the C code) and transferred control to the slot's entry label. *)
Definition call (ids : id_h) (sl : slot) (ra : nat) (s : cpu) : cpu :=
  mk_cpu (addr ids (entry sl)) (ra :: stack s)
         (r16 s) (DDRB s) (clk s) (log s).

(** The tag as a whole: [main] polls for at most [rounds] rounds; if a slot
    is dispatched the assembly code runs [n] instructions from its entry.
    The C code writes [PORTB] only, never [DDRB], so polling leaves the
    machine state alone. *)
Definition tag (ids : id_h) (rounds : nat) (pins : nat -> Z)
    (ra : nat) (s : cpu) (n : nat) : option cpu :=
  match main_loop rounds pins 0 with
  | Dispatch sl _ => run ids n (call ids sl ra s)
  | Return _ => Some s
  end.

(** The identifier record each packet assembler is written against. *)
Definition mfr_of (ids : id_h) (sl : slot) : Z :=
  match sl with
  | slot0 | slot1 => EM4102_MFR_ID ids
  | slot2 => EM4102_MFR_ID2 ids
  end.

Definition uid_of (ids : id_h) (sl : slot) : Z :=
  match sl with
  | slot0 => EM4102_UNIQUE_ID0 ids
  | slot1 => EM4102_UNIQUE_ID1 ids
  | slot2 => EM4102_UNIQUE_ID2 ids
  end.

Definition column_parity_of (ids : id_h) (sl : slot) : Z :=
  match sl with
  | slot0 => COLUMN_PARITY0 ids
  | slot1 => COLUMN_PARITY1 ids
  | slot2 => COLUMN_PARITY2 ids
  end.

(** Instructions executed per pass through a packet assembler: 128
    baseband half-bits of 16 instructions each, and the closing [rjmp]. *)
Definition frame_steps : nat := 128 * 16 + 1.

(** ** The receiver's side

    What a reader sees is the sequence of drive states of the coil pins.
    The macro [manchester] sends a 1 as (driven, released) and a 0 as
    (released, driven); [demanchester] undoes exactly that. *)

Definition drive (b : bool) : Z := if b then OUT_PINS else 0.

Definition baseband (b : bool) : list instr :=
  if b then baseband_1 else baseband_0.

(** The subroutine each emitter macro calls. *)
Definition baseband30_lbl_of (b : bool) : label :=
  if b then baseband30_1_lbl else baseband30_0_lbl.

Definition bb (halfbits : list bool) : list instr :=
  flat_map baseband halfbits.

Definition line (bits : list bool) : list bool :=
  flat_map (fun b => [b; negb b]) bits.

(** [stamps t vs]: the log entries of consecutive half-bits [vs] when the
    first emitter is invoked at clock [t]. *)
Fixpoint stamps (t : Z) (vs : list bool) : list (Z * Z) :=
  match vs with
  | [] => []
  | v :: vs' => (t + 7, drive v) :: stamps (t + 32) vs'
  end.

Definition demanchester_pair (a b : Z) : option bool :=
  if (a =? OUT_PINS) && (b =? 0) then Some true
  else if (a =? 0) && (b =? OUT_PINS) then Some false
  else None.

Fixpoint demanchester (l : list Z) : option (list bool) :=
  match l with
  | [] => Some []
  | [_] => None
  | a :: b :: l' =>
      match demanchester_pair a b, demanchester l' with
      | Some x, Some xs => Some (x :: xs)
      | _, _ => None
      end
  end.

(** The logical bits sent during one pass of the slot's packet assembler,
    as received. *)
Definition frame_from (ids : id_h) (s : cpu) : option (list bool) :=
  demanchester (map snd (emitted ids frame_steps s)).

Definition frame (ids : id_h) (sl : slot) (ra : nat) (s : cpu)
  : option (list bool) :=
  frame_from ids (call ids sl ra s).

(** Bits [n-1] down to [0] of a field. *)
Definition field_bits (v : Z) (n : nat) : list bool :=
  map (fun i => Z.testbit v (Z.of_nat i)) (rev (seq 0 n)).

Definition popcount (l : list bool) : nat := length (filter (fun b => b) l).

Definition xor_all (l : list bool) : bool := fold_left xorb l false.

Definition bits_to_Z (l : list bool) : Z :=
  fold_left (fun acc b => 2 * acc + Z.b2z b) l 0.

(** The repository has no decoder (the reader hardware does the decoding);
    the frame check and de-framing below follow the frame layout the
    specification gives: 9 header bits, ten rows of 4 data bits and an
    even-parity bit, 4 column parity bits, a stop bit.  The 40 data bits are
    the manufacturer code (8 bits) followed by the unique code. *)
Fixpoint rows_of (n : nat) (l : list bool) : list (list bool) :=
  match n with
  | O => []
  | S n' => firstn 5 l :: rows_of n' (skipn 5 l)
  end.

Definition column (j : nat) (rows : list (list bool)) : list bool :=
  map (fun r => nth j r false) rows.

Definition is_stop (l : list bool) : bool :=
  match l with
  | [false] => true
  | _ => false
  end.

(** [spec_decode bits]: the pair (manufacturer code, unique code) when
    [bits] is a well-formed frame, [None] otherwise. *)
Definition spec_decode (bits : list bool) : option (Z * Z) :=
  let hdr := firstn 9 bits in
  let rows := rows_of 10 (skipn 9 bits) in
  let cols := firstn 4 (skipn 59 bits) in
  let stop := skipn 63 bits in
  if (length bits =? 64)%nat
     && forallb (fun b => b) hdr
     && forallb (fun r => negb (xor_all r)) rows
     && forallb (fun j => eqb (nth j cols false) (xor_all (column j rows)))
                (seq 0 4)
     && is_stop stop
  then
    let data := map (firstn 4) rows in
    Some (bits_to_Z (concat (firstn 2 data)),
          bits_to_Z (concat (skipn 2 data)))
  else None.

(** Column parity as the specification words it: the XOR of the two
    manufacturer nibbles and of ten nibbles of a 40-bit unique code. *)
Definition nibble (x : Z) (k : Z) : Z := Z.land (Z.shiftr x (4 * k)) 0xF.

Definition spec_column_parity (mfr uid : Z) : Z :=
  fold_left Z.lxor
    (map (nibble uid) [9; 8; 7; 6; 5; 4; 3; 2; 1; 0])
    (Z.lxor (nibble mfr 1) (nibble mfr 0)).

(** Column parity over the nibbles the packet assemblers send: two of the
    manufacturer code, eight of the unique code. *)
Definition sent_column_parity (mfr uid : Z) : Z :=
  fold_left Z.lxor
    (map (nibble uid) [7; 6; 5; 4; 3; 2; 1; 0])
    (Z.lxor (nibble mfr 1) (nibble mfr 0)).

(** The record a frame can carry: 8 bits of manufacturer code, 32 bits of
    unique code. *)
Definition truncate (ids : id_h) : id_h :=
  mk_id_h (EM4102_MFR_ID ids mod 2 ^ 8)
          (EM4102_UNIQUE_ID0 ids mod 2 ^ 32)
          (EM4102_UNIQUE_ID1 ids mod 2 ^ 32)
          (EM4102_MFR_ID2 ids mod 2 ^ 8)
          (EM4102_UNIQUE_ID2 ids mod 2 ^ 32).

(** Pin levels seen on port B: bits 0..2 are the three switches (low when
    pressed), [rest] the remaining lines. *)
Definition pin_levels (b0 b1 b2 : bool) (rest : Z) : Z :=
  Z.b2z b0 + 2 * Z.b2z b1 + 4 * Z.b2z b2 + 8 * rest.

(** A build used for the concrete checks: the record of the specification's
    scenario in slot 0. *)
Definition ids_example : id_h :=
  mk_id_h 0x12 0x3456789A 0x00000001 0xAB 0xFFFFFFFF.

(** [code_at ids a l]: the instructions [l] sit in the text section from
    address [a] on. *)
Definition code_at (ids : id_h) (a : nat) (l : list instr) : Prop :=
  forall i x, nth_error l i = Some x ->
              nth_error (text ids) (a + i) = Some x.

(** Instructions that only pass time. *)
Definition idle (i : instr) : bool :=
  match i with
  | nop | rjmp_dot => true
  | _ => false
  end.

(** The fields a packet assembler hands to [manchester], in order, each
    with its width. *)
Definition fields (ids : id_h) (sl : slot) : list (Z * nat) :=
  let mfr := mfr_of ids sl in
  let uid := uid_of ids sl in
  [ (0x1FF, 9%nat);
    (ROW_PARITY (Z.shiftr mfr 4), 5%nat);
    (ROW_PARITY (Z.shiftr mfr 0), 5%nat);
    (ROW_PARITY (Z.shiftr uid 28), 5%nat);
    (ROW_PARITY (Z.shiftr uid 24), 5%nat);
    (ROW_PARITY (Z.shiftr uid 20), 5%nat);
    (ROW_PARITY (Z.shiftr uid 16), 5%nat);
    (ROW_PARITY (Z.shiftr uid 12), 5%nat);
    (ROW_PARITY (Z.shiftr uid 8), 5%nat);
    (ROW_PARITY (Z.shiftr uid 4), 5%nat);
    (ROW_PARITY (Z.shiftr uid 0), 5%nat);
    (column_parity_of ids sl, 4%nat);
    (0, 1%nat) ].

(** Their bits, most significant first. *)
Definition sent_bits (ids : id_h) (sl : slot) : list bool :=
  flat_map (fun f => field_bits (fst f) (snd f)) (fields ids sl).

(** Where control can be once the packet assembler of slot [sl] has been
    called with return address [ra] on top of the caller's stack [st]:
    inside the slot's own code with the stack as it was at entry, or inside
    the emitter subroutines with one return address into the slot's code on
    top of it. *)
Definition in_assembler (ids : id_h) (sl : slot) (ra : nat) (st : list nat)
    (s : cpu) : Prop :=
  let e := addr ids (entry sl) in
  (e <= pc s < e + 257 /\ stack s = ra :: st)%nat \/
  (addr ids baseband30_0_lbl <= pc s < length (text ids) /\
   exists r, e < r < e + 257 /\ stack s = r :: ra :: st)%nat.

(** The ten nibble expressions handed to [ROW_PARITY], in order. *)
Definition nibbles (ids : id_h) (sl : slot) : list Z :=
  let mfr := mfr_of ids sl in
  let uid := uid_of ids sl in
  [ Z.shiftr mfr 4; Z.shiftr mfr 0;
    Z.shiftr uid 28; Z.shiftr uid 24; Z.shiftr uid 20; Z.shiftr uid 16;
    Z.shiftr uid 12; Z.shiftr uid 8; Z.shiftr uid 4; Z.shiftr uid 0 ].

(** The parity bit of a nibble: the XOR of its four bits. *)
Definition nibble_parity (n : Z) : bool :=
  xorb (xorb (xorb (Z.testbit n 0) (Z.testbit n 1)) (Z.testbit n 2))
       (Z.testbit n 3).

(** The first-match policy: the switch on PB0 before the one on PB1 before
    the one on PB2 ([true] is a high line, a switch not pressed). *)
Definition first_pressed (b0 b1 b2 : bool) : option slot :=
  if negb b0 then Some slot0
  else if negb b1 then Some slot1
  else if negb b2 then Some slot2
  else None.

(** Pins that keep the same levels at every read. *)
Definition steady (pinb : Z) : nat -> Z := fun _ => pinb.

(** ** test.c: [setup] and the polling order

    [setup] is the read-modify-write [PORTB |= _BV(DDB2) | _BV(DDB1) |
    _BV(DDB0)]; with the pins configured as inputs, a 1 in [PORTB] turns
    the pull-up of the pin on. *)
Definition DDB0 : Z := 0.
Definition DDB1 : Z := 1.
Definition DDB2 : Z := 2.

Definition setup (portb : Z) : Z :=
  Z.lor portb (Z.lor (Z.lor (_BV DDB2) (_BV DDB1)) (_BV DDB0)).

(** The [k]-th read of [PINB] that [main] makes (counting from 0) looks at
    one switch only: PB0, PB1, PB2 in turn. *)
Definition polled (k : nat) : Z :=
  match (k mod 3)%nat with
  | 0%nat => PINB0
  | 1%nat => PINB1
  | _ => PINB2
  end.

Definition polled_slot (k : nat) : slot :=
  match (k mod 3)%nat with
  | 0%nat => slot0
  | 1%nat => slot1
  | _ => slot2
  end.

(** The first of the reads [k], [k+1], ..., [k+m-1] after read [t] that
    finds the switch it looks at pressed. *)
Fixpoint first_hit (pins : nat -> Z) (t k m : nat) : option nat :=
  match m with
  | O => None
  | S m' =>
      if pressed (pins (t + k)%nat) (polled k) then Some k
      else first_hit pins t (S k) m'
  end.

(** No three consecutive writes of the same value. *)
Fixpoint no_run3 (l : list Z) : bool :=
  match l with
  | a :: l' =>
      match l' with
      | b :: c :: _ => negb ((a =? b) && (b =? c)) && no_run3 l'
      | _ => true
      end
  | [] => true
  end.

(** Number of positions in which two [n]-bit fields differ. *)
Definition distance (v w : Z) (n : nat) : nat :=
  popcount (field_bits (Z.lxor v w) n).

(** ** Ranges

    The integers of the assembler. *)
Definition asm_int (x : Z) : Prop := 0 <= x < 2 ^ 64.

(** The identifier records of a build as the data model has them: 8-bit
    manufacturer codes and 40-bit unique codes (48 bits per record). *)
Definition stored_records (ids : id_h) : Prop :=
  0 <= EM4102_MFR_ID ids < 2 ^ 8 /\
  0 <= EM4102_MFR_ID2 ids < 2 ^ 8 /\
  0 <= EM4102_UNIQUE_ID0 ids < 2 ^ 40 /\
  0 <= EM4102_UNIQUE_ID1 ids < 2 ^ 40 /\
  0 <= EM4102_UNIQUE_ID2 ids < 2 ^ 40.

(** A build whose unique codes use all 40 bits. *)
Definition ids_40bit : id_h :=
  mk_id_h 0x12 0x123456789A 0xFF00000001 0xAB 0xFFFFFFFFFF.

(** The log entries of [n] passes in a row, the first one starting at clock
    [t] and each later one 4098 cycles after the one before. *)
Definition passes_log (t : Z) (bits : list bool) (n : nat) : list (Z * Z) :=
  flat_map (fun k => stamps (t + 4098 * Z.of_nat k) (line bits)) (seq 0 n).

(** * Properties *)

(** ** Macro expansion *)

Example delay19 : delay 19 =
  [rjmp_dot; rjmp_dot; rjmp_dot; rjmp_dot; rjmp_dot; rjmp_dot; rjmp_dot;
   rjmp_dot; rjmp_dot; nop].
Proof. reflexivity. Qed.

Example row_parity_5 : ROW_PARITY 5 = 10.
Proof. reflexivity. Qed.

Example row_parity_7 : ROW_PARITY 7 = 15.
Proof. reflexivity. Qed.

Example frame_example :
  frame ids_example slot0 1000 (mk_cpu 0 [] 0 0 0 []) =
  Some (map (fun c => negb (c =? 0))
    [1;1;1;1;1;1;1;1;1;
     0;0;0;1;1;  0;0;1;0;1;
     0;0;1;1;0;  0;1;0;0;1;  0;1;0;1;0;  0;1;1;0;0;
     0;1;1;1;1;  1;0;0;0;1;  1;0;0;1;0;  1;0;1;0;0;
     1;0;1;1; 0]).
Proof. vm_compute. reflexivity. Qed.

Lemma manchester_length v n : length (manchester v n) = (4 * n)%nat.
Proof.
  revert v; induction n as [|n IH]; intro v; [reflexivity|].
  cbn [manchester]. rewrite length_app, IH.
  destruct (negb (Z.land v 1 =? 0)); cbn; lia.
Qed.

Lemma delay_idle n : forallb idle (delay n) = true.
Proof.
  funelim (delay n); cbn [forallb idle andb]; auto.
Qed.

(** [delay n] costs [n] cycles. *)
Lemma delay_cost n : 0 <= n -> cost (delay n) = n.
Proof.
  funelim (delay n); intro Hn.
  - cbn [cost cycles_of].
    match goal with IH : _ -> cost _ = _ |- _ => rewrite IH by lia end. lia.
  - cbn [cost cycles_of].
    match goal with IH : _ -> cost _ = _ |- _ => rewrite IH by lia end. lia.
  - cbn. lia.
Qed.

Section Layout.

Variable ids : id_h.

Lemma emulateid0_length : length (emulateid0 ids) = 257%nat.
Proof.
  unfold emulateid0, header, stop_bit.
  rewrite !length_app, !manchester_length. reflexivity.
Qed.

Lemma emulateid1_length : length (emulateid1 ids) = 257%nat.
Proof.
  unfold emulateid1, header, stop_bit.
  rewrite !length_app, !manchester_length. reflexivity.
Qed.

Lemma emulateid2_length : length (emulateid2 ids) = 257%nat.
Proof.
  unfold emulateid2, header, stop_bit.
  rewrite !length_app, !manchester_length. reflexivity.
Qed.

Lemma text_length : length (text ids) = 787%nat.
Proof.
  unfold text.
  rewrite !length_app, emulateid0_length, emulateid1_length,
    emulateid2_length.
  reflexivity.
Qed.

Lemma addr_entry sl :
  addr ids (entry sl) =
  match sl with slot0 => 0 | slot1 => 257 | slot2 => 514 end%nat.
Proof.
  destruct sl; cbn [addr entry];
    rewrite ?emulateid0_length, ?emulateid1_length; reflexivity.
Qed.

Lemma nth_error_mid (pre l post : list instr) i x :
  nth_error l i = Some x ->
  nth_error (pre ++ l ++ post) (length pre + i) = Some x.
Proof.
  intro H.
  rewrite nth_error_app2 by lia.
  replace (length pre + i - length pre)%nat with i by lia.
  rewrite nth_error_app1; [exact H|].
  apply nth_error_Some. congruence.
Qed.

Lemma code_at_label l : code_at ids (addr ids l) (code_of ids l).
Proof.
  intros i x H. unfold text.
  destruct l; cbn [addr code_of] in *.
  - apply (nth_error_mid []); exact H.
  - apply nth_error_mid; exact H.
  - rewrite <- length_app, app_assoc. apply nth_error_mid; exact H.
  - rewrite <- !length_app, app_assoc, app_assoc.
    apply nth_error_mid; exact H.
  - rewrite <- !length_app, app_assoc, app_assoc, app_assoc.
    apply nth_error_mid; exact H.
  - rewrite <- !length_app, app_assoc, app_assoc, app_assoc, app_assoc.
    rewrite <- (app_nil_r baseband30) at 1.
    apply nth_error_mid; exact H.
Qed.

Lemma code_at_app a l1 l2 :
  code_at ids a (l1 ++ l2) ->
  code_at ids a l1 /\ code_at ids (a + length l1) l2.
Proof.
  intro H; split; intros i x Hi.
  - apply H. rewrite nth_error_app1; [exact Hi|].
    apply nth_error_Some; congruence.
  - rewrite <- Nat.add_assoc. apply H.
    rewrite nth_error_app2 by lia.
    replace (length l1 + i - length l1)%nat with i by lia. exact Hi.
Qed.

Lemma code_at_head a x l :
  code_at ids a (x :: l) ->
  nth_error (text ids) a = Some x /\ code_at ids (a + 1) l.
Proof.
  intro H; split.
  - rewrite <- (Nat.add_0_r a). apply H. reflexivity.
  - intros i y Hi. rewrite <- Nat.add_assoc. apply H. exact Hi.
Qed.

End Layout.

(** ** Execution *)

Lemma run_add ids n m s :
  run ids (n + m) s =
  match run ids n s with
  | Some s' => run ids m s'
  | None => None
  end.
Proof.
  revert s; induction n as [|n IH]; intro s; cbn [run Nat.add]; [reflexivity|].
  destruct (step ids s); [apply IH | reflexivity].
Qed.

Lemma run_one ids s : run ids 1 s = step ids s.
Proof. cbn [run]. destruct (step ids s); reflexivity. Qed.

Lemma step_fetch ids p st r d t lg i :
  nth_error (text ids) p = Some i ->
  step ids (mk_cpu p st r d t lg) = exec ids i (mk_cpu p st r d t lg).
Proof. unfold step. cbn [pc]. intros ->. reflexivity. Qed.

(** [one_instr H]: execute the instruction whose fetch is [H]. *)
Ltac one_instr H :=
  rewrite run_one, (step_fetch _ _ _ _ _ _ _ _ H);
  cbn [exec pc stack r16 DDRB clk log cycles_of].

Section Execution.

Variable ids : id_h.

(** Idle code only advances the program counter and the clock. *)
Lemma run_idle l : forall s,
  forallb idle l = true ->
  code_at ids (pc s) l ->
  run ids (length l) s =
  Some (mk_cpu (pc s + length l) (stack s) (r16 s) (DDRB s)
               (clk s + cost l) (log s)).
Proof.
  induction l as [|i l IH]; intros [p st r d t lg] Hidle Hcode;
    cbn [pc stack r16 DDRB clk log] in *.
  - cbn. do 2 f_equal; lia.
  - cbn [forallb] in Hidle. apply andb_prop in Hidle as [Hi Hl].
    apply code_at_head in Hcode as [Hf Hrest].
    cbn [length run]. rewrite (step_fetch _ _ _ _ _ _ _ _ Hf).
    destruct i; try discriminate Hi; cbn [exec];
      (rewrite IH; [cbn [pc stack r16 DDRB clk log cost cycles_of];
                    f_equal; f_equal; lia | exact Hl | exact Hrest]).
Qed.

(** The inner routine [baseband30]: 12 instructions, 24 cycles. *)
Lemma run_baseband30 ra st r d t lg :
  run ids 12 (mk_cpu (addr ids baseband30_lbl) (ra :: st) r d t lg) =
  Some (mk_cpu ra st r r (t + 24) (lg ++ [(t + 1, r)])).
Proof.
  pose proof (code_at_label ids baseband30_lbl) as Hc.
  cbn [code_of] in Hc. unfold baseband30 in Hc.
  apply code_at_head in Hc as [Hout Hc].
  apply code_at_app in Hc as [Hdelay Hret].
  apply code_at_head in Hret as [Hret _].
  change 12%nat with (1 + (length (delay 19) + 1))%nat.
  rewrite run_add. one_instr Hout.
  rewrite run_add, run_idle; [| apply delay_idle | exact Hdelay].
  cbn [pc stack r16 clk log DDRB].
  one_instr Hret.
  rewrite delay_cost by lia. do 2 f_equal. lia.
Qed.

(** [baseband30_0] and [baseband30_1] from their label to the return:
    14 instructions, 27 cycles (30 with the [rcall]). *)
Lemma run_baseband30_b (b : bool) ra st r d t lg :
  run ids 14 (mk_cpu (addr ids (baseband30_lbl_of b)) (ra :: st) r d t lg) =
  Some (mk_cpu ra st (drive b) (drive b) (t + 27)
               (lg ++ [(t + 4, drive b)])).
Proof.
  pose proof (code_at_label ids (baseband30_lbl_of b)) as Hc.
  assert (Hcode : code_of ids (baseband30_lbl_of b) =
                  [ldi_r16 (drive b); rjmp baseband30_lbl])
    by (destruct b; reflexivity).
  rewrite Hcode in Hc.
  apply code_at_head in Hc as [Hldi Hc].
  apply code_at_head in Hc as [Hrjmp _].
  change 14%nat with (1 + (1 + 12))%nat.
  rewrite run_add. one_instr Hldi.
  rewrite run_add. one_instr Hrjmp.
  rewrite run_baseband30. do 2 f_equal; [lia|].
  do 3 f_equal. lia.
Qed.

(** One invocation of the emitter macro [baseband_0] / [baseband_1]. *)
Lemma run_baseband (b : bool) s :
  code_at ids (pc s) (baseband b) ->
  run ids 16 s =
  Some (mk_cpu (pc s + 2) (stack s) (drive b) (drive b) (clk s + 32)
               (log s ++ [(clk s + 7, drive b)])).
Proof.
  destruct s as [p st r d t lg]; cbn [pc stack r16 DDRB clk log].
  intro Hc.
  assert (Hcode : baseband b = [rcall (baseband30_lbl_of b); rjmp_dot])
    by (destruct b; reflexivity).
  rewrite Hcode in Hc.
  apply code_at_head in Hc as [Hcall Hc].
  apply code_at_head in Hc as [Hdot _].
  change 16%nat with (1 + (14 + 1))%nat.
  rewrite run_add. one_instr Hcall.
  rewrite run_add, run_baseband30_b.
  one_instr Hdot.
  do 2 f_equal; try lia. do 3 f_equal. lia.
Qed.

End Execution.

(** ** From macros to bits *)

Lemma land_1_testbit v : negb (Z.land v 1 =? 0) = Z.testbit v 0.
Proof.
  change 1 with (Z.ones 1). rewrite Z.land_ones by lia.
  change (2 ^ 1) with 2. rewrite <- Z.bit0_mod.
  destruct (Z.testbit v 0); reflexivity.
Qed.

Lemma field_bits_S v n :
  field_bits v (S n) = Z.testbit v (Z.of_nat n) :: field_bits v n.
Proof.
  unfold field_bits. rewrite seq_S, rev_app_distr. reflexivity.
Qed.

Lemma field_bits_shift v n :
  field_bits v (S n) = field_bits (Z.shiftr v 1) n ++ [Z.testbit v 0].
Proof.
  unfold field_bits. cbn [seq]. rewrite <- seq_shift.
  cbn [rev]. rewrite map_app. f_equal.
  rewrite <- map_rev, map_map. apply map_ext. intro i.
  rewrite Z.shiftr_spec by lia. f_equal. lia.
Qed.

Lemma field_bits_length v n : length (field_bits v n) = n.
Proof.
  unfold field_bits. rewrite length_map, length_rev, length_seq. reflexivity.
Qed.

Lemma bb_app l1 l2 : bb (l1 ++ l2) = bb l1 ++ bb l2.
Proof. apply flat_map_app. Qed.

Lemma line_app l1 l2 : line (l1 ++ l2) = line l1 ++ line l2.
Proof. apply flat_map_app. Qed.

Lemma line_length l : length (line l) = (2 * length l)%nat.
Proof. unfold line. induction l as [|b l IH]; cbn in *; lia. Qed.

Lemma bb_length l : length (bb l) = (2 * length l)%nat.
Proof.
  induction l as [|b l IH]; [reflexivity|].
  change (bb (b :: l)) with (baseband b ++ bb l).
  rewrite length_app, IH. destruct b; cbn; lia.
Qed.

(** A single bit: two complementary half-bits, the bit's own value first. *)
Lemma manchester_one (b : bool) :
  manchester (Z.b2z b) 1 = baseband b ++ baseband (negb b).
Proof. destruct b; reflexivity. Qed.

(** The expansion of [manchester]: the bits of the field, most significant
    first, each as two half-bit emitter invocations. *)
Lemma manchester_line v n : manchester v n = bb (line (field_bits v n)).
Proof.
  revert v; induction n as [|n IH]; intro v; [reflexivity|].
  cbn [manchester]. rewrite field_bits_shift, line_app, bb_app, IH.
  f_equal. rewrite land_1_testbit.
  destruct (Z.testbit v 0); reflexivity.
Qed.

Lemma code_of_entry ids sl :
  code_of ids (entry sl) =
  bb (line (sent_bits ids sl)) ++ [rjmp (entry sl)].
Proof.
  unfold sent_bits, fields.
  cbn [flat_map fst snd]. rewrite !line_app, !bb_app, <- !manchester_line.
  rewrite app_nil_r, <- !app_assoc.
  destruct sl; reflexivity.
Qed.

Lemma sent_bits_length ids sl : length (sent_bits ids sl) = 64%nat.
Proof.
  unfold sent_bits, fields. cbn [flat_map fst snd].
  rewrite !length_app, !field_bits_length. reflexivity.
Qed.

Lemma last_cons {A} (a d : A) l : last (a :: l) d = last l a.
Proof.
  revert a d; induction l as [|b l IH]; intros a d; [reflexivity|].
  change (last (a :: b :: l) d) with (last (b :: l) d).
  rewrite !IH. reflexivity.
Qed.

Lemma stamps_app t l1 l2 :
  stamps t (l1 ++ l2) =
  stamps t l1 ++ stamps (t + 32 * Z.of_nat (length l1)) l2.
Proof.
  revert t; induction l1 as [|v l1 IH]; intro t.
  - cbn. f_equal. lia.
  - cbn [app stamps length]. rewrite IH. cbn [app]. do 3 f_equal. lia.
Qed.

Lemma stamps_values t l : map snd (stamps t l) = map drive l.
Proof.
  revert t; induction l as [|v l IH]; intro t; [reflexivity|].
  cbn [stamps map snd]. rewrite IH. reflexivity.
Qed.

Lemma demanchester_line bits :
  demanchester (map drive (line bits)) = Some bits.
Proof.
  induction bits as [|b bits IH]; [reflexivity|].
  change (line (b :: bits)) with (b :: negb b :: line bits).
  cbn [map demanchester]. rewrite IH.
  destruct b; reflexivity.
Qed.

Section Frames.

Variable ids : id_h.

(** A run of half-bit emitter invocations. *)
Lemma run_bb hs : forall p st r d t lg,
  code_at ids p (bb hs) ->
  run ids (16 * length hs) (mk_cpu p st r d t lg) =
  Some (mk_cpu (p + 2 * length hs) st
               (last (map drive hs) r) (last (map drive hs) d)
               (t + 32 * Z.of_nat (length hs))
               (lg ++ stamps t hs)).
Proof.
  induction hs as [|h hs IH]; intros p st r d t lg Hc.
  - cbn. rewrite app_nil_r. do 2 f_equal; lia.
  - change (bb (h :: hs)) with (baseband h ++ bb hs) in Hc.
    apply code_at_app in Hc as [Hh Hrest].
    replace (length (baseband h)) with 2%nat in Hrest
      by (destruct h; reflexivity).
    cbn [length].
    replace (16 * S (length hs))%nat with (16 + 16 * length hs)%nat by lia.
    rewrite run_add, (run_baseband ids h (mk_cpu p st r d t lg) Hh).
    cbn [pc stack r16 DDRB clk log].
    rewrite (IH _ _ _ _ _ _ Hrest).
    cbn [map stamps]. rewrite !last_cons, <- app_assoc. cbn [app].
    do 2 f_equal; lia.
Qed.

(** One pass through a packet assembler, from its entry label back to it. *)
Lemma run_frame sl st r d t lg :
  run ids frame_steps (mk_cpu (addr ids (entry sl)) st r d t lg) =
  Some (mk_cpu (addr ids (entry sl)) st OUT_PINS OUT_PINS (t + 4098)
               (lg ++ stamps t (line (sent_bits ids sl)))).
Proof.
  pose proof (code_at_label ids (entry sl)) as Hc.
  rewrite code_of_entry in Hc.
  apply code_at_app in Hc as [Hbb Hjmp].
  apply code_at_head in Hjmp as [Hjmp _].
  assert (Hlen : length (line (sent_bits ids sl)) = 128%nat)
    by (rewrite line_length, sent_bits_length; reflexivity).
  change frame_steps with (16 * 128 + 1)%nat. rewrite <- Hlen.
  rewrite run_add, (run_bb _ _ _ _ _ _ _ Hbb).
  rewrite bb_length in Hjmp.
  one_instr Hjmp.
  assert (Hlast : forall x,
            last (map drive (line (sent_bits ids sl))) x = OUT_PINS).
  { intro x. unfold sent_bits, fields. cbn [flat_map fst snd].
    rewrite app_nil_r, !app_assoc, (line_app _ (field_bits 0 1)), map_app.
    change (map drive (line (field_bits 0 1)))
      with ([drive false] ++ [drive true]).
    rewrite app_assoc. apply last_last. }
  rewrite !Hlast, Hlen. do 2 f_equal. lia.
Qed.

End Frames.

(** ** What a reader receives *)

Section Received.

Variable ids : id_h.

Lemma skipn_length_app {A} (l1 l2 : list A) : skipn (length l1) (l1 ++ l2) = l2.
Proof. induction l1 as [|a l1 IH]; [reflexivity | exact IH]. Qed.

Lemma emitted_frame sl st r d t lg :
  emitted ids frame_steps (mk_cpu (addr ids (entry sl)) st r d t lg) =
  stamps t (line (sent_bits ids sl)).
Proof.
  unfold emitted. rewrite run_frame. cbn [log]. apply skipn_length_app.
Qed.

Lemma frame_from_entry sl st r d t lg :
  frame_from ids (mk_cpu (addr ids (entry sl)) st r d t lg) =
  Some (sent_bits ids sl).
Proof.
  unfold frame_from. rewrite emitted_frame, stamps_values.
  apply demanchester_line.
Qed.

Lemma frame_sent sl ra s : frame ids sl ra s = Some (sent_bits ids sl).
Proof. unfold frame, call. apply frame_from_entry. Qed.

(** [k] passes in a row. *)
Lemma run_frames sl k : forall st r d t lg,
  exists r' d' lg',
    run ids (k * frame_steps) (mk_cpu (addr ids (entry sl)) st r d t lg) =
    Some (mk_cpu (addr ids (entry sl)) st r' d' (t + 4098 * Z.of_nat k) lg')
    /\ map snd lg' =
       map snd lg ++
       concat (repeat (map drive (line (sent_bits ids sl))) k).
Proof.
  induction k as [|k IH]; intros st r d t lg.
  - exists r, d, lg. split.
    + cbn [Nat.mul run]. do 2 f_equal. lia.
    + cbn. rewrite app_nil_r. reflexivity.
  - cbn [Nat.mul]. rewrite run_add, run_frame.
    destruct (IH st OUT_PINS OUT_PINS (t + 4098)
                 (lg ++ stamps t (line (sent_bits ids sl))))
      as (r' & d' & lg' & Hrun & Hlog).
    exists r', d', lg'. split.
    + rewrite Hrun. do 2 f_equal. lia.
    + rewrite Hlog, map_app, stamps_values, <- app_assoc. reflexivity.
Qed.

Lemma run_frames_call sl ra s k :
  exists s_k,
    run ids (k * frame_steps) (call ids sl ra s) = Some s_k /\
    pc s_k = addr ids (entry sl) /\
    stack s_k = ra :: stack s /\
    clk s_k = clk s + 4098 * Z.of_nat k /\
    map snd (log s_k) =
      map snd (log s) ++
      concat (repeat (map drive (line (sent_bits ids sl))) k).
Proof.
  destruct (run_frames sl k (ra :: stack s) (r16 s) (DDRB s) (clk s) (log s))
    as (r' & d' & lg' & Hrun & Hlog).
  eexists. split; [exact Hrun|]. cbn [pc stack clk log].
  repeat (split; [reflexivity|]). exact Hlog.
Qed.

End Received.

(** ** Control stays inside the assembly code *)

Section NoReturn.

Variable ids : id_h.

Lemma bb_instrs hs :
  Forall (fun x => x = rjmp_dot \/ exists b, x = rcall (baseband30_lbl_of b))
         (bb hs).
Proof.
  induction hs as [|h hs IH]; [constructor|].
  change (bb (h :: hs)) with (baseband h ++ bb hs).
  apply Forall_app; split; [|exact IH].
  destruct h; cbn [baseband]; unfold baseband_0, baseband_1.
  - constructor; [right; exists true; reflexivity|].
    constructor; [left; reflexivity | constructor].
  - constructor; [right; exists false; reflexivity|].
    constructor; [left; reflexivity | constructor].
Qed.

(** The instructions of a packet assembler: 256 emitter calls and two-cycle
    pauses, then the jump back to its own entry. *)
Lemma entry_instr sl i :
  (i < 257)%nat ->
  let a := (addr ids (entry sl) + i)%nat in
  ((i < 256)%nat /\
   (nth_error (text ids) a = Some rjmp_dot \/
    exists b, nth_error (text ids) a = Some (rcall (baseband30_lbl_of b))))
  \/ (i = 256%nat /\ nth_error (text ids) a = Some (rjmp (entry sl))).
Proof.
  intros Hi a. subst a.
  pose proof (code_at_label ids (entry sl)) as Hc.
  rewrite code_of_entry in Hc.
  assert (Hlen : length (bb (line (sent_bits ids sl))) = 256%nat)
    by (rewrite bb_length, line_length, sent_bits_length; reflexivity).
  destruct (Nat.eq_dec i 256) as [->|Hne].
  - right. split; [reflexivity|]. apply Hc.
    rewrite nth_error_app2 by lia. rewrite Hlen. reflexivity.
  - left. split; [lia|].
    destruct (nth_error (bb (line (sent_bits ids sl))) i) as [x|] eqn:Hx.
    + pose proof (bb_instrs (line (sent_bits ids sl))) as Hall.
      rewrite Forall_forall in Hall.
      pose proof (Hall x (nth_error_In _ _ Hx)) as Hform.
      assert (Hf : nth_error (text ids) (addr ids (entry sl) + i) = Some x).
      { apply Hc. rewrite nth_error_app1 by lia. exact Hx. }
      destruct Hform as [->|[b ->]]; [left | right; exists b]; exact Hf.
    + apply nth_error_None in Hx. lia.
Qed.

Lemma addr_baseband :
  addr ids baseband30_0_lbl = 771%nat /\
  addr ids baseband30_1_lbl = 773%nat /\
  addr ids baseband30_lbl = 775%nat.
Proof.
  cbn [addr].
  rewrite emulateid0_length, emulateid1_length, emulateid2_length.
  repeat split; reflexivity.
Qed.

Lemma fetch_tail j :
  nth_error (text ids) (771 + j) =
  nth_error (baseband30_0 ++ baseband30_1 ++ baseband30) j.
Proof.
  unfold text.
  rewrite nth_error_app2 by (rewrite emulateid0_length; lia).
  rewrite nth_error_app2 by (rewrite emulateid0_length, emulateid1_length; lia).
  rewrite nth_error_app2
    by (rewrite emulateid0_length, emulateid1_length, emulateid2_length; lia).
  rewrite emulateid0_length, emulateid1_length, emulateid2_length.
  f_equal. lia.
Qed.

(** One instruction keeps control where [in_assembler] says, and never
    gets stuck. *)
Lemma in_assembler_step sl ra st s :
  in_assembler ids sl ra st s ->
  exists s', step ids s = Some s' /\ in_assembler ids sl ra st s'.
Proof.
  destruct addr_baseband as (Hb0 & Hb1 & Hb).
  pose proof (addr_entry ids sl) as He.
  unfold in_assembler. rewrite text_length, Hb0.
  destruct s as [p stk r d t lg]; cbn [pc stack].
  intros [[Hp Hstk] | [Hp (ret_a & Hr & Hstk)]]; subst stk.
  - (* in the slot's own code *)
    assert (Hi : (p - addr ids (entry sl) < 257)%nat) by lia.
    destruct (entry_instr sl _ Hi) as [[Hlt Hf] | [Heq Hf]];
      cbv zeta in Hf;
      replace (addr ids (entry sl) + (p - addr ids (entry sl)))%nat
        with p in Hf by lia.
    + destruct Hf as [Hf | [b Hf]];
        rewrite (step_fetch ids _ _ _ _ _ _ _ Hf); cbn [exec];
        eexists; (split; [reflexivity|]); cbn [pc stack].
      * left. split; [lia | reflexivity].
      * right. split.
        -- destruct b; cbn [baseband30_lbl_of]; rewrite ?Hb0, ?Hb1; lia.
        -- exists (p + 1)%nat. split; [lia | reflexivity].
    + rewrite (step_fetch ids _ _ _ _ _ _ _ Hf). cbn [exec].
      eexists; (split; [reflexivity|]); cbn [pc stack].
      left. split; [lia | reflexivity].
  - (* in the emitter subroutines *)
    assert (Hj : exists j, p = (771 + j)%nat /\ (j < 16)%nat)
      by (exists (p - 771)%nat; lia).
    destruct Hj as (j & -> & Hj).
    unfold step; cbn [pc]. rewrite fetch_tail.
    unfold baseband30, baseband30_0, baseband30_1. rewrite delay19.
    do 16 (destruct j as [|j];
           [cbn [nth_error app exec stack]; eexists; (split; [reflexivity|]);
            cbn [pc stack]; rewrite ?Hb;
            first [ right; split; [lia|]; exists ret_a; split;
                    [lia | reflexivity]
                  | left; split; [lia | reflexivity] ]
           |]).
    lia.
Qed.

Lemma in_assembler_run sl ra st n : forall s,
  in_assembler ids sl ra st s ->
  exists s', run ids n s = Some s' /\ in_assembler ids sl ra st s'.
Proof.
  induction n as [|n IH]; intros s Hs.
  - exists s. split; [reflexivity | exact Hs].
  - destruct (in_assembler_step sl ra st s Hs) as (s1 & Hstep & Hs1).
    cbn [run]. rewrite Hstep. apply IH, Hs1.
Qed.

Lemma in_assembler_call sl ra s :
  in_assembler ids sl ra (stack s) (call ids sl ra s).
Proof.
  left. cbn [call pc stack]. split; [lia | reflexivity].
Qed.

End NoReturn.

(** ** Bits of the parity macros *)

Lemma testbit_land_1 x : Z.testbit (Z.land x 1) 0 = Z.testbit x 0.
Proof. rewrite Z.land_spec. apply andb_true_r. Qed.

Lemma testbit_land_1_high x k : 0 < k -> Z.testbit (Z.land x 1) k = false.
Proof.
  intro Hk. rewrite Z.land_spec.
  replace (Z.testbit 1 k) with false; [apply andb_false_r|].
  symmetry. change 1 with (2 ^ 0). apply Z.pow2_bits_false. lia.
Qed.

Lemma row_parity_bit0 n : Z.testbit (ROW_PARITY n) 0 = nibble_parity n.
Proof.
  unfold ROW_PARITY, nibble_parity.
  rewrite Z.lor_spec, Z.shiftl_spec, Z.testbit_neg_r, testbit_land_1 by lia.
  rewrite !Z.lxor_spec, !Z.shiftr_spec by lia. reflexivity.
Qed.

Lemma row_parity_data n k :
  0 <= k < 4 -> Z.testbit (ROW_PARITY n) (k + 1) = Z.testbit n k.
Proof.
  intro Hk. unfold ROW_PARITY.
  rewrite Z.lor_spec, Z.shiftl_spec, testbit_land_1_high by lia.
  replace (k + 1 - 1) with k by lia.
  rewrite Z.land_spec, orb_false_r.
  replace (Z.testbit 15 k) with true; [apply andb_true_r|].
  assert (Hc : k = 0 \/ k = 1 \/ k = 2 \/ k = 3) by lia.
  destruct Hc as [->|[->|[->| ->]]]; reflexivity.
Qed.

(** The five bits of a row group: the nibble's four bits, then its parity. *)
Lemma row_bits n :
  field_bits (ROW_PARITY n) 5 = field_bits n 4 ++ [nibble_parity n].
Proof.
  unfold field_bits. cbn [seq rev app map Z.of_nat Pos.of_succ_nat Pos.succ].
  rewrite row_parity_bit0.
  assert (H3 : Z.testbit (ROW_PARITY n) 4 = Z.testbit n 3)
    by (apply (row_parity_data n 3); lia).
  assert (H2 : Z.testbit (ROW_PARITY n) 3 = Z.testbit n 2)
    by (apply (row_parity_data n 2); lia).
  assert (H1 : Z.testbit (ROW_PARITY n) 2 = Z.testbit n 1)
    by (apply (row_parity_data n 1); lia).
  assert (H0 : Z.testbit (ROW_PARITY n) 1 = Z.testbit n 0)
    by (apply (row_parity_data n 0); lia).
  rewrite H3, H2, H1, H0. reflexivity.
Qed.

Lemma nibble_parity_odd n :
  nibble_parity n = Nat.odd (popcount (field_bits n 4)).
Proof.
  unfold nibble_parity, field_bits, popcount.
  cbn [seq rev app map Z.of_nat Pos.of_succ_nat Pos.succ].
  destruct (Z.testbit n 0), (Z.testbit n 1), (Z.testbit n 2), (Z.testbit n 3);
    reflexivity.
Qed.

Lemma row_even n : Nat.even (popcount (field_bits (ROW_PARITY n) 5)) = true.
Proof.
  rewrite row_bits. unfold nibble_parity, field_bits, popcount.
  cbn [seq rev app map Z.of_nat Pos.of_succ_nat Pos.succ].
  destruct (Z.testbit n 0), (Z.testbit n 1), (Z.testbit n 2), (Z.testbit n 3);
    reflexivity.
Qed.

Lemma row_xor n : xor_all (field_bits (ROW_PARITY n) 5) = false.
Proof.
  rewrite row_bits. unfold nibble_parity, field_bits, xor_all.
  cbn [seq rev app map Z.of_nat Pos.of_succ_nat Pos.succ].
  destruct (Z.testbit n 0), (Z.testbit n 1), (Z.testbit n 2), (Z.testbit n 3);
    reflexivity.
Qed.

Lemma land_1_b2z x : Z.land x 1 = Z.b2z (Z.testbit x 0).
Proof.
  change 1 with (Z.ones 1). rewrite Z.land_ones by lia.
  change (2 ^ 1) with 2. symmetry. apply Z.bit0_mod.
Qed.

Lemma row_parity_lsb n :
  Z.land (Z.lxor (Z.lxor (Z.lxor n (Z.shiftr n 1)) (Z.shiftr n 2))
                 (Z.shiftr n 3)) 1 =
  Z.b2z (nibble_parity n).
Proof.
  rewrite land_1_b2z. unfold nibble_parity.
  rewrite !Z.lxor_spec, !Z.shiftr_spec by lia. reflexivity.
Qed.

(** The bits of a column parity field: bit [k] is the XOR of bit [k] of the
    ten nibble expressions. *)
Lemma column_parity_bit ids sl k :
  0 <= k ->
  Z.testbit (column_parity_of ids sl) k =
  xor_all (map (fun n => Z.testbit n k) (nibbles ids sl)).
Proof.
  intro Hk.
  destruct sl; cbn [column_parity_of];
    unfold COLUMN_PARITY0, COLUMN_PARITY1, COLUMN_PARITY2, nibbles, xor_all;
    cbn [mfr_of uid_of map fold_left];
    rewrite !Z.lxor_spec, !Z.shiftr_0_r; reflexivity.
Qed.

Lemma fields_nibbles ids sl :
  fields ids sl =
  (0x1FF, 9%nat) :: map (fun n => (ROW_PARITY n, 5%nat)) (nibbles ids sl) ++
  [(column_parity_of ids sl, 4%nat); (0, 1%nat)].
Proof. reflexivity. Qed.

(** The frame, field by field. *)
Lemma sent_bits_layout ids sl :
  sent_bits ids sl =
  repeat true 9 ++
  flat_map (fun n => field_bits n 4 ++ [nibble_parity n]) (nibbles ids sl) ++
  field_bits (column_parity_of ids sl) 4 ++ [false].
Proof.
  unfold sent_bits. rewrite fields_nibbles.
  cbn [flat_map fst snd]. f_equal.
  rewrite flat_map_app. f_equal.
  rewrite flat_map_concat_map, map_map, <- flat_map_concat_map.
  apply flat_map_ext. intro n. cbn [fst snd]. apply row_bits.
Qed.

(** ** De-framing *)

Lemma bits_to_Z_snoc l b : bits_to_Z (l ++ [b]) = 2 * bits_to_Z l + Z.b2z b.
Proof. unfold bits_to_Z. rewrite fold_left_app. reflexivity. Qed.

Lemma bits_to_Z_field v n : bits_to_Z (field_bits v n) = v mod 2 ^ Z.of_nat n.
Proof.
  revert v; induction n as [|n IH]; intro v.
  - cbn. symmetry. apply Z.mod_1_r.
  - rewrite field_bits_shift, bits_to_Z_snoc, IH.
    rewrite Z.shiftr_div_pow2 by lia. change (2 ^ 1) with 2.
    rewrite Z.bit0_mod, Nat2Z.inj_succ, Z.pow_succ_r by lia.
    rewrite Z.rem_mul_r by lia. lia.
Qed.

Lemma field_bits_split v n m :
  field_bits v (n + m) =
  field_bits (Z.shiftr v (Z.of_nat m)) n ++ field_bits v m.
Proof.
  induction n as [|n IH]; [reflexivity|].
  cbn [Nat.add]. rewrite !field_bits_S, IH. cbn [app]. f_equal.
  rewrite Z.shiftr_spec by lia. f_equal. lia.
Qed.

Lemma field_bits_join v n m k :
  k = Z.of_nat m ->
  field_bits (Z.shiftr v k) n ++ field_bits v m = field_bits v (n + m).
Proof. intros ->. symmetry. apply field_bits_split. Qed.

Lemma forallb_map_all {A B} (f : B -> bool) (g : A -> B) l :
  (forall a, f (g a) = true) -> forallb f (map g l) = true.
Proof.
  intro H. induction l as [|a l IH]; [reflexivity|].
  cbn [map forallb]. rewrite H, IH. reflexivity.
Qed.

Lemma spec_decode_sent ids sl :
  spec_decode (sent_bits ids sl) =
  Some (mfr_of ids sl mod 2 ^ 8, uid_of ids sl mod 2 ^ 32).
Proof.
  unfold spec_decode. rewrite sent_bits_length.
  rewrite sent_bits_layout.
  set (cp := column_parity_of ids sl).
  set (row := fun n => field_bits n 4 ++ [nibble_parity n]).
  set (R := map row (nibbles ids sl)).
  set (bits := repeat true 9 ++ _).
  assert (Hrows : rows_of 10 (skipn 9 bits) = R) by reflexivity.
  assert (Hhdr : firstn 9 bits = repeat true 9) by reflexivity.
  assert (Hcols : firstn 4 (skipn 59 bits) = field_bits cp 4) by reflexivity.
  assert (Hstop : skipn 63 bits = [false]) by reflexivity.
  rewrite Hrows, Hhdr, Hcols, Hstop. clear Hrows Hhdr Hcols Hstop bits.
  assert (Hpar : forallb (fun r => negb (xor_all r)) R = true).
  { apply forallb_map_all. intro n. unfold row.
    rewrite <- row_bits, row_xor. reflexivity. }
  assert (Hcol : forallb (fun j => eqb (nth j (field_bits cp 4) false)
                                      (xor_all (column j R))) (seq 0 4) = true).
  { cbn [seq forallb].
    change (nth 0 (field_bits cp 4) false) with (Z.testbit cp 3).
    change (nth 1 (field_bits cp 4) false) with (Z.testbit cp 2).
    change (nth 2 (field_bits cp 4) false) with (Z.testbit cp 1).
    change (nth 3 (field_bits cp 4) false) with (Z.testbit cp 0).
    change (column 0 R) with (map (fun n => Z.testbit n 3) (nibbles ids sl)).
    change (column 1 R) with (map (fun n => Z.testbit n 2) (nibbles ids sl)).
    change (column 2 R) with (map (fun n => Z.testbit n 1) (nibbles ids sl)).
    change (column 3 R) with (map (fun n => Z.testbit n 0) (nibbles ids sl)).
    unfold cp. rewrite !column_parity_bit by lia.
    rewrite !eqb_reflx. reflexivity. }
  rewrite Hpar, Hcol. cbn [Nat.eqb forallb repeat andb is_stop].
  assert (Hm : concat (firstn 2 (map (firstn 4) R)) =
               field_bits (mfr_of ids sl) 8).
  { change (concat (firstn 2 (map (firstn 4) R)))
      with (field_bits (Z.shiftr (mfr_of ids sl) 4) 4 ++
            field_bits (Z.shiftr (mfr_of ids sl) 0) 4 ++ []).
    rewrite app_nil_r, Z.shiftr_0_r.
    apply (field_bits_join (mfr_of ids sl) 4 4 4 eq_refl). }
  assert (Hu : concat (skipn 2 (map (firstn 4) R)) =
               field_bits (uid_of ids sl) 32).
  { set (u := uid_of ids sl).
    change (concat (skipn 2 (map (firstn 4) R)))
      with (field_bits (Z.shiftr u 28) 4 ++ field_bits (Z.shiftr u 24) 4 ++
            field_bits (Z.shiftr u 20) 4 ++ field_bits (Z.shiftr u 16) 4 ++
            field_bits (Z.shiftr u 12) 4 ++ field_bits (Z.shiftr u 8) 4 ++
            field_bits (Z.shiftr u 4) 4 ++ field_bits (Z.shiftr u 0) 4 ++ []).
    rewrite app_nil_r, Z.shiftr_0_r.
    rewrite (field_bits_join u 4 4 4 eq_refl); cbn [Nat.add].
    rewrite (field_bits_join u 4 8 8 eq_refl); cbn [Nat.add].
    rewrite (field_bits_join u 4 12 12 eq_refl); cbn [Nat.add].
    rewrite (field_bits_join u 4 16 16 eq_refl); cbn [Nat.add].
    rewrite (field_bits_join u 4 20 20 eq_refl); cbn [Nat.add].
    rewrite (field_bits_join u 4 24 24 eq_refl); cbn [Nat.add].
    rewrite (field_bits_join u 4 28 28 eq_refl); cbn [Nat.add].
    reflexivity. }
  rewrite Hm, Hu, !bits_to_Z_field. reflexivity.
Qed.

(** ** Records within the data model *)

Lemma stored_mfr ids sl :
  stored_records ids -> 0 <= mfr_of ids sl < 2 ^ 8.
Proof. intros (H1 & H2 & _). destruct sl; assumption. Qed.

Lemma stored_uid ids sl :
  stored_records ids -> 0 <= uid_of ids sl < 2 ^ 40.
Proof. intros (_ & _ & H0 & H1 & H2). destruct sl; assumption. Qed.

Lemma stored_example : stored_records ids_40bit.
Proof. unfold stored_records, ids_40bit. cbn. lia. Qed.

(** ** The timed log of several passes *)

Lemma passes_log_S t bits n :
  passes_log t bits (S n) =
  stamps t (line bits) ++ passes_log (t + 4098) bits n.
Proof.
  unfold passes_log. cbn [seq flat_map]. f_equal.
  - f_equal. lia.
  - rewrite <- seq_shift, !flat_map_concat_map, map_map. f_equal.
    apply map_ext. intro k. f_equal. lia.
Qed.

Lemma run_frames_timed ids sl k : forall st r d t lg,
  exists r' d',
    run ids (k * frame_steps) (mk_cpu (addr ids (entry sl)) st r d t lg) =
    Some (mk_cpu (addr ids (entry sl)) st r' d' (t + 4098 * Z.of_nat k)
                 (lg ++ passes_log t (sent_bits ids sl) k)).
Proof.
  induction k as [|k IH]; intros st r d t lg.
  - exists r, d. cbn [Nat.mul run passes_log seq flat_map].
    rewrite app_nil_r. do 2 f_equal. lia.
  - cbn [Nat.mul]. rewrite run_add, run_frame.
    destruct (IH st OUT_PINS OUT_PINS (t + 4098)
                 (lg ++ stamps t (line (sent_bits ids sl))))
      as (r' & d' & Hrun).
    exists r', d'. rewrite Hrun, passes_log_S, <- app_assoc.
    do 2 f_equal. lia.
Qed.

Lemma run_frames_timed_call ids sl ra s k :
  exists s_k,
    run ids (k * frame_steps) (call ids sl ra s) = Some s_k /\
    pc s_k = addr ids (entry sl) /\
    stack s_k = ra :: stack s /\
    clk s_k = clk s + 4098 * Z.of_nat k /\
    log s_k = log s ++ passes_log (clk s) (sent_bits ids sl) k.
Proof.
  destruct (run_frames_timed ids sl k (ra :: stack s) (r16 s) (DDRB s)
                             (clk s) (log s)) as (r' & d' & Hrun).
  eexists. split; [exact Hrun|]. cbn [pc stack clk log].
  repeat split.
Qed.

Lemma passes_log_values t bits n :
  map snd (passes_log t bits n) = concat (repeat (map drive (line bits)) n).
Proof.
  revert t; induction n as [|n IH]; intro t; [reflexivity|].
  rewrite passes_log_S, map_app, stamps_values, IH. reflexivity.
Qed.

(** * The claims *)

(** C1, as the code has it: for every stored identifier record (an 8-bit
    manufacturer code and a 40-bit unique code), the frame a packet
    assembler emits in one pass, as received, is exactly 64 logical bits
    long and passes the header, row-parity, column-parity and stop-bit
    checks; de-framing gives back the manufacturer code and the low 32
    bits of the unique code, so the pair is recovered exactly when the
    unique code is below 2^32. *)
Theorem frame_roundtrip ids sl ra s :
  stored_records ids ->
  exists bits,
    frame ids sl ra s = Some bits /\
    length bits = 64%nat /\
    spec_decode bits =
      Some (mfr_of ids sl, uid_of ids sl mod 2 ^ 32) /\
    (spec_decode bits = Some (mfr_of ids sl, uid_of ids sl) <->
     uid_of ids sl < 2 ^ 32).
Proof.
  intro Hst.
  pose proof (stored_mfr ids sl Hst) as Hm.
  pose proof (stored_uid ids sl Hst) as Hu.
  exists (sent_bits ids sl). split; [apply frame_sent|].
  split; [apply sent_bits_length|].
  rewrite spec_decode_sent, (Z.mod_small (mfr_of ids sl)) by assumption.
  split; [reflexivity|]. split.
  - intro H.
    assert (Heq : uid_of ids sl mod 2 ^ 32 = uid_of ids sl) by congruence.
    rewrite <- Heq. apply Z.mod_pos_bound. lia.
  - intro Hlt. rewrite Z.mod_small by lia. reflexivity.
Qed.

Lemma frame_roundtrip_witness :
  stored_records ids_40bit /\
  exists bits,
    frame ids_40bit slot0 1000 (mk_cpu 0 [] 0 0 0 []) = Some bits /\
    length bits = 64%nat /\
    spec_decode bits = Some (0x12, 0x123456789A mod 2 ^ 32) /\
    (spec_decode bits = Some (0x12, 0x123456789A) <->
     0x123456789A < 2 ^ 32).
Proof.
  split; [exact stored_example|].
  exact (frame_roundtrip ids_40bit slot0 1000 (mk_cpu 0 [] 0 0 0 [])
                         stored_example).
Defined.

(** C1, as stated, fails: the record with manufacturer code 0x12 and the
    40-bit unique code 0x123456789A is sent as a frame that de-frames to
    the unique code 0x3456789A. *)
Lemma frame_roundtrip_40bit_counterexample :
  stored_records ids_40bit /\
  exists bits,
    frame ids_40bit slot0 1000 (mk_cpu 0 [] 0 0 0 []) = Some bits /\
    length bits = 64%nat /\
    spec_decode bits = Some (0x12, 0x3456789A) /\
    spec_decode bits <>
      Some (mfr_of ids_40bit slot0, uid_of ids_40bit slot0).
Proof.
  split; [exact stored_example|].
  eexists. split; [vm_compute; reflexivity|].
  split; [reflexivity|]. split; [vm_compute; reflexivity|].
  vm_compute. discriminate.
Qed.

(** C2: every invocation of the baseband bit emitter, [baseband_0] as well
    as [baseband_1], takes the same 16 instructions and the same 32 clock
    cycles, call and return included (30 of them from the [rcall] to the
    return, 2 for the closing [rjmp .+0]); the write to [DDRB] completes 7
    cycles after the invocation starts, whatever the bit value. *)
Theorem baseband_constant_time ids (b : bool) p st r d t lg :
  code_at ids p (baseband b) ->
  run ids 15 (mk_cpu p st r d t lg) =
    Some (mk_cpu (p + 1) st (drive b) (drive b) (t + 30)
                 (lg ++ [(t + 7, drive b)])) /\
  run ids 16 (mk_cpu p st r d t lg) =
    Some (mk_cpu (p + 2) st (drive b) (drive b) (t + 32)
                 (lg ++ [(t + 7, drive b)])).
Proof.
  intro Hc. split; [|apply (run_baseband ids b (mk_cpu p st r d t lg) Hc)].
  assert (Hcode : baseband b = [rcall (baseband30_lbl_of b); rjmp_dot])
    by (destruct b; reflexivity).
  rewrite Hcode in Hc. apply code_at_head in Hc as [Hcall _].
  change 15%nat with (1 + 14)%nat.
  rewrite run_add. one_instr Hcall.
  rewrite run_baseband30_b. do 2 f_equal; try lia. do 3 f_equal. lia.
Qed.

Lemma baseband_constant_time_witness :
  code_at ids_example 0 (baseband true) /\
  run ids_example 15 (mk_cpu 0 [1000%nat] 0 0 0 []) =
    Some (mk_cpu 1 [1000%nat] OUT_PINS OUT_PINS 30 [(7, OUT_PINS)]) /\
  run ids_example 16 (mk_cpu 0 [1000%nat] 0 0 0 []) =
    Some (mk_cpu 2 [1000%nat] OUT_PINS OUT_PINS 32 [(7, OUT_PINS)]).
Proof.
  assert (Hc : code_at ids_example 0 (baseband true)).
  { intros i x Hi. destruct i as [|[|i]]; cbn in Hi.
    - injection Hi as <-. reflexivity.
    - injection Hi as <-. reflexivity.
    - destruct i; discriminate Hi. }
  split; [exact Hc|].
  exact (baseband_constant_time ids_example true 0 [1000%nat] 0 0 0 [] Hc).
Defined.

(** C3: for every nibble expression [n], [ROW_PARITY] is the low nibble of
    [n] shifted left by one, OR'd with the parity bit of that nibble (1 when
    the nibble has an odd number of set bits); the row group sent for it is
    the nibble's four bits followed by that bit and has an even number of
    set bits; and every one of the ten row groups of every frame received
    has five bits, an even number of them set. *)
Theorem row_parity_even (n : Z) ids sl ra s :
  ROW_PARITY n =
    Z.lor (Z.shiftl (Z.land n 0xF) 1)
          (Z.b2z (Nat.odd (popcount (field_bits n 4)))) /\
  manchester (ROW_PARITY n) 5 =
    bb (line (field_bits n 4 ++ [Nat.odd (popcount (field_bits n 4))])) /\
  Nat.even (popcount (field_bits (ROW_PARITY n) 5)) = true /\
  exists bits,
    frame ids sl ra s = Some bits /\
    Forall (fun row => length row = 5%nat /\ Nat.even (popcount row) = true)
           (rows_of 10 (skipn 9 bits)).
Proof.
  split; [|split; [|split]].
  - unfold ROW_PARITY. rewrite row_parity_lsb, nibble_parity_odd. reflexivity.
  - rewrite manchester_line, row_bits, nibble_parity_odd. reflexivity.
  - apply row_even.
  - exists (sent_bits ids sl). split; [apply frame_sent|].
    rewrite sent_bits_layout.
    set (row := fun n => field_bits n 4 ++ [nibble_parity n]).
    change (rows_of 10 _) with (map row (nibbles ids sl)).
    apply Forall_map, Forall_forall. intros m _. unfold row.
    split; [reflexivity|]. rewrite <- row_bits. apply row_even.
Qed.

(** C4: every frame received has 64 bits, and in it, for every bit column
    [j] in 0..3 (counted from the most significant bit of a nibble), the
    column-parity bit at position [j] (bit 59 + j of the frame) equals the
    XOR of the bits at position [j] of the data nibbles of all ten row
    groups (bits 9 + 5g + j). *)
Theorem column_parity_xor ids sl ra s :
  exists bits,
    frame ids sl ra s = Some bits /\
    length bits = 64%nat /\
    Forall (fun j =>
              nth (59 + j) bits false =
              xor_all (map (fun g => nth (9 + 5 * g + j) bits false)
                           (seq 0 10)))
           (seq 0 4).
Proof.
  exists (sent_bits ids sl). split; [apply frame_sent|].
  split; [apply sent_bits_length|].
  rewrite sent_bits_layout.
  set (cp := column_parity_of ids sl).
  set (bits := repeat true 9 ++ _).
  cbn [seq]. repeat constructor.
  - change (nth (59 + 0) bits false) with (Z.testbit cp 3).
    unfold cp. rewrite column_parity_bit by lia. reflexivity.
  - change (nth (59 + 1) bits false) with (Z.testbit cp 2).
    unfold cp. rewrite column_parity_bit by lia. reflexivity.
  - change (nth (59 + 2) bits false) with (Z.testbit cp 1).
    unfold cp. rewrite column_parity_bit by lia. reflexivity.
  - change (nth (59 + 3) bits false) with (Z.testbit cp 0).
    unfold cp. rewrite column_parity_bit by lia. reflexivity.
Qed.

(** C5: [manchester v n] sends bit [n-1] of the field first and bit 0
    last, each bit obtained as [(v >> i) & 1] and sent as two complementary
    half-bit emitter invocations (the bit's own value first, then its
    complement), by the same rule in the header, the row and column groups
    and the stop bit; a zero-width field expands to nothing.  Executed, the
    expansion takes 64 cycles per bit and what it writes to [DDRB]
    de-Manchesters to the bits of the field, most significant first. *)
Theorem manchester_msb_first ids (v : Z) (n : nat) p st r d t lg :
  code_at ids p (manchester v n) ->
  manchester v n =
    flat_map (fun i => manchester (Z.land (Z.shiftr v (Z.of_nat i)) 1) 1)
             (rev (seq 0 n)) /\
  (forall b : bool, manchester (Z.b2z b) 1 = baseband b ++ baseband (negb b)) /\
  manchester v 0 = [] /\
  header = bb (line (repeat true 9)) /\
  stop_bit = bb (line [false]) /\
  run ids (32 * n) (mk_cpu p st r d t lg) =
    Some (mk_cpu (p + 4 * n) st
                 (last (map drive (line (field_bits v n))) r)
                 (last (map drive (line (field_bits v n))) d)
                 (t + 64 * Z.of_nat n)
                 (lg ++ stamps t (line (field_bits v n)))) /\
  demanchester (map snd (stamps t (line (field_bits v n)))) =
    Some (map (fun i => Z.testbit v (Z.of_nat i)) (rev (seq 0 n))).
Proof.
  intro Hc.
  split; [|split; [|split; [|split; [|split; [|split]]]]].
  - rewrite manchester_line. unfold field_bits, bb, line.
    induction (rev (seq 0 n)) as [|i l IH]; [reflexivity|].
    cbn [map flat_map]. rewrite flat_map_app, IH. f_equal.
    rewrite land_1_b2z, manchester_one, Z.shiftr_spec by lia.
    cbn [Z.add flat_map baseband]. rewrite app_nil_r. reflexivity.
  - apply manchester_one.
  - reflexivity.
  - reflexivity.
  - reflexivity.
  - rewrite manchester_line in Hc.
    pose proof (run_bb ids _ p st r d t lg Hc) as Hrun.
    rewrite line_length, field_bits_length in Hrun.
    replace (32 * n)%nat with (16 * (2 * n))%nat by lia.
    rewrite Hrun. do 2 f_equal; lia.
  - rewrite stamps_values. apply demanchester_line.
Qed.

Lemma manchester_msb_first_witness :
  code_at ids_example 0 (manchester 0x1FF 9) /\
  run ids_example (32 * 9) (mk_cpu 0 [1000%nat] 0 0 0 []) =
    Some (mk_cpu 36 [1000%nat] 0 0 576
                 (stamps 0 (line (repeat true 9)))) /\
  demanchester (map snd (stamps 0 (line (field_bits 0x1FF 9)))) =
    Some (repeat true 9).
Proof.
  assert (Hc : code_at ids_example 0 (manchester 0x1FF 9)).
  { pose proof (code_at_label ids_example emulateid0_lbl) as H.
    cbn [code_of] in H. unfold emulateid0 in H.
    apply code_at_app in H as [H _]. exact H. }
  split; [exact Hc|].
  exact (proj2 (proj2 (proj2 (proj2 (proj2
    (manchester_msb_first ids_example 0x1FF 9 0 [1000%nat] 0 0 0 [] Hc)))))).
Defined.

(** C6: every pass of every packet assembler, the first as well as each
    later one, sends a frame of 64 bits that begins with the nine 1 bits of
    the header and ends with the 0 stop bit, and it is the same frame on
    every pass. *)
Theorem frame_header_and_stop ids sl ra s (k : nat) :
  exists s_k bits,
    run ids (k * frame_steps) (call ids sl ra s) = Some s_k /\
    pc s_k = addr ids (entry sl) /\
    frame_from ids s_k = Some bits /\
    frame ids sl ra s = Some bits /\
    length bits = 64%nat /\
    firstn 9 bits = repeat true 9 /\
    skipn 63 bits = [false].
Proof.
  destruct (run_frames_call ids sl ra s k) as (s_k & Hrun & Hpc & _).
  exists s_k, (sent_bits ids sl). split; [exact Hrun|].
  split; [exact Hpc|].
  split; [destruct s_k; cbn [pc] in Hpc; subst; apply frame_from_entry|].
  split; [apply frame_sent|].
  split; [apply sent_bits_length|].
  rewrite sent_bits_layout. split; reflexivity.
Qed.

(** ** The record a frame carries *)

Lemma testbit_shiftr_mod x w k j :
  0 <= k -> 0 <= j -> k + j < w ->
  Z.testbit (Z.shiftr (x mod 2 ^ w) k) j = Z.testbit (Z.shiftr x k) j.
Proof.
  intros Hk Hj Hw. rewrite !Z.shiftr_spec by lia.
  apply Z.mod_pow2_bits_low. lia.
Qed.

Lemma nibble_row_mod x w k :
  0 <= k -> k + 4 <= w ->
  field_bits (Z.shiftr (x mod 2 ^ w) k) 4 ++
    [nibble_parity (Z.shiftr (x mod 2 ^ w) k)] =
  field_bits (Z.shiftr x k) 4 ++ [nibble_parity (Z.shiftr x k)].
Proof.
  intros Hk Hw. unfold field_bits, nibble_parity.
  cbn [seq rev app map Z.of_nat Pos.of_succ_nat Pos.succ].
  rewrite !(testbit_shiftr_mod x w k) by lia. reflexivity.
Qed.

Lemma mfr_of_truncate ids sl :
  mfr_of (truncate ids) sl = mfr_of ids sl mod 2 ^ 8.
Proof. destruct sl; reflexivity. Qed.

Lemma uid_of_truncate ids sl :
  uid_of (truncate ids) sl = uid_of ids sl mod 2 ^ 32.
Proof. destruct sl; reflexivity. Qed.

Lemma sent_bits_truncate ids sl :
  sent_bits (truncate ids) sl = sent_bits ids sl.
Proof.
  rewrite !sent_bits_layout. f_equal. f_equal.
  - unfold nibbles. rewrite mfr_of_truncate, uid_of_truncate.
    cbn [flat_map].
    rewrite !(nibble_row_mod (mfr_of ids sl) 8) by lia.
    rewrite !(nibble_row_mod (uid_of ids sl) 32) by lia.
    reflexivity.
  - f_equal. unfold field_bits.
    cbn [seq rev app map Z.of_nat Pos.of_succ_nat Pos.succ].
    rewrite !column_parity_bit by lia.
    unfold nibbles. rewrite mfr_of_truncate, uid_of_truncate.
    cbn [map].
    rewrite !(testbit_shiftr_mod (mfr_of ids sl) 8) by lia.
    rewrite !(testbit_shiftr_mod (uid_of ids sl) 32) by lia.
    reflexivity.
Qed.

Lemma testbit_nibble x k j :
  0 <= k -> 0 <= j ->
  Z.testbit (nibble x k) j = Z.testbit (Z.shiftr x (4 * k)) j && (j <? 4).
Proof.
  intros Hk Hj. unfold nibble. rewrite Z.land_spec. f_equal.
  change 15 with (Z.ones 4).
  destruct (Z.ltb_spec j 4).
  - apply Z.ones_spec_low. lia.
  - apply Z.ones_spec_high. lia.
Qed.

Lemma column_parity_sent ids sl :
  Z.land (column_parity_of ids sl) 0xF =
  sent_column_parity (mfr_of ids sl) (uid_of ids sl).
Proof.
  apply Z.bits_inj'. intros j Hj.
  rewrite Z.land_spec, column_parity_bit by lia.
  unfold sent_column_parity, nibbles, xor_all. cbn [map fold_left].
  rewrite !Z.lxor_spec, !testbit_nibble by lia.
  change 15 with (Z.ones 4). cbn [Z.mul Pos.mul].
  destruct (Z.ltb_spec j 4).
  - rewrite Z.ones_spec_low by lia. rewrite !andb_true_r. reflexivity.
  - rewrite Z.ones_spec_high by lia. rewrite !andb_false_r. reflexivity.
Qed.

(** C7, as the code has it: a stored identifier record is an 8-bit
    manufacturer code and a 40-bit unique code, of which the packet
    assemblers send the low 32 bits.  The four column parity bits are the
    XOR of the two manufacturer nibbles and of the eight low nibbles of
    the unique code (its bits 0..31); bits 32..39 of the unique code do
    not reach the assembled code; and the parity generator is defined for
    all 48-bit identifier inputs: the frame is produced, has 64 bits,
    passes the parity checks and de-frames to the manufacturer code and
    the low 32 bits of the unique code. *)
Theorem column_parity_record ids sl ra s :
  stored_records ids ->
  Z.land (column_parity_of ids sl) 0xF =
    sent_column_parity (mfr_of ids sl) (uid_of ids sl) /\
  manchester (column_parity_of ids sl) 4 =
    manchester (sent_column_parity (mfr_of ids sl) (uid_of ids sl)) 4 /\
  code_of (truncate ids) (entry sl) = code_of ids (entry sl) /\
  exists bits,
    frame ids sl ra s = Some bits /\
    length bits = 64%nat /\
    spec_decode bits = Some (mfr_of ids sl, uid_of ids sl mod 2 ^ 32).
Proof.
  intro Hst. pose proof (stored_mfr ids sl Hst) as Hm.
  split; [apply column_parity_sent|]. split; [|split].
  - rewrite !manchester_line. do 2 f_equal.
    rewrite <- column_parity_sent. unfold field_bits.
    apply map_ext_in. intros i Hi. apply in_rev, in_seq in Hi.
    rewrite Z.land_spec. change 15 with (Z.ones 4).
    rewrite Z.ones_spec_low by lia. symmetry. apply andb_true_r.
  - rewrite !code_of_entry, sent_bits_truncate. reflexivity.
  - exists (sent_bits ids sl). split; [apply frame_sent|].
    split; [apply sent_bits_length|].
    rewrite spec_decode_sent, (Z.mod_small (mfr_of ids sl)) by assumption.
    reflexivity.
Qed.

Lemma column_parity_record_witness :
  stored_records ids_40bit /\
  Z.land (column_parity_of ids_40bit slot0) 0xF =
    sent_column_parity 0x12 0x123456789A /\
  exists bits,
    frame ids_40bit slot0 1000 (mk_cpu 0 [] 0 0 0 []) = Some bits /\
    length bits = 64%nat /\
    spec_decode bits = Some (0x12, 0x123456789A mod 2 ^ 32).
Proof.
  split; [exact stored_example|].
  pose proof (column_parity_record ids_40bit slot0 1000
                (mk_cpu 0 [] 0 0 0 []) stored_example) as H.
  split; [exact (proj1 H) | exact (proj2 (proj2 (proj2 H)))].
Defined.

(** C7, as stated, fails: with a unique code that has bit 32 set (a 40-bit
    value), the column parity in the code is not the XOR over ten
    unique-code nibbles, and the assembled code is the same as for the
    unique code 0. *)
Lemma column_parity_40bit_counterexample :
  Z.land (column_parity_of (mk_id_h 0 (2 ^ 32) 0 0 0) slot0) 0xF <>
    spec_column_parity 0 (2 ^ 32) /\
  emulateid0 (mk_id_h 0 (2 ^ 32) 0 0 0) = emulateid0 (mk_id_h 0 0 0 0 0).
Proof. split; [discriminate | reflexivity]. Qed.

(** ** The selector loop *)

Lemma land_pow2 x k :
  0 <= k -> Z.land x (2 ^ k) = if Z.testbit x k then 2 ^ k else 0.
Proof.
  intro Hk. apply Z.bits_inj'. intros n Hn. rewrite Z.land_spec.
  destruct (Z.eq_dec n k) as [->|Hne].
  - rewrite Z.pow2_bits_true by lia.
    destruct (Z.testbit x k);
      [rewrite Z.pow2_bits_true by lia | rewrite Z.bits_0]; reflexivity.
  - rewrite Z.pow2_bits_false by lia. rewrite andb_false_r.
    destruct (Z.testbit x k);
      [rewrite Z.pow2_bits_false by lia | rewrite Z.bits_0]; reflexivity.
Qed.

Lemma pressed_testbit pinb k :
  0 <= k -> pressed pinb k = negb (Z.testbit pinb k).
Proof.
  intro Hk. unfold pressed, _BV. rewrite Z.shiftl_1_l, land_pow2 by lia.
  destruct (Z.testbit pinb k); [|reflexivity].
  apply Z.eqb_neq. apply Z.pow_nonzero; lia.
Qed.

Lemma pin_levels_bits b0 b1 b2 rest :
  Z.testbit (pin_levels b0 b1 b2 rest) 0 = b0 /\
  Z.testbit (pin_levels b0 b1 b2 rest) 1 = b1 /\
  Z.testbit (pin_levels b0 b1 b2 rest) 2 = b2.
Proof.
  unfold pin_levels.
  replace (Z.b2z b0 + 2 * Z.b2z b1 + 4 * Z.b2z b2 + 8 * rest)
    with (2 * (2 * (2 * rest + Z.b2z b2) + Z.b2z b1) + Z.b2z b0) by lia.
  split; [apply Z.testbit_0_r|].
  split.
  - change 1 with (Z.succ 0). rewrite Z.testbit_succ_r by lia.
    apply Z.testbit_0_r.
  - change 2 with (Z.succ (Z.succ 0)). rewrite !Z.testbit_succ_r by lia.
    apply Z.testbit_0_r.
Qed.

Lemma loop_steady b0 b1 b2 rest t :
  loop (fun _ => pin_levels b0 b1 b2 rest) t =
  if negb b0 then Dispatch slot0 (t + 1)
  else if negb b1 then Dispatch slot1 (t + 2)
  else if negb b2 then Dispatch slot2 (t + 3)
  else Return (t + 3).
Proof.
  destruct (pin_levels_bits b0 b1 b2 rest) as (H0 & H1 & H2).
  unfold loop, PINB0, PINB1, PINB2.
  rewrite !pressed_testbit, H0, H1, H2 by lia. reflexivity.
Qed.

Lemma main_loop_idle rest n : forall t,
  main_loop n (fun _ => pin_levels true true true rest) t = Return (t + 3 * n).
Proof.
  induction n as [|n IH]; intro t; cbn [main_loop].
  - f_equal. lia.
  - rewrite loop_steady. cbn [negb]. rewrite IH. f_equal. lia.
Qed.

(** C8: with steady pin levels, the selector loop dispatches to the first
    pressed switch in the order PB0, PB1, PB2: exactly one pressed switch
    selects its own slot, several pressed switches select the first of
    them, and the selected packet assembler then emits its slot's frame
    (64 bits: the header, the slot's ten row groups, its column parity and
    the stop bit) pass after pass, [k] copies of its 128 half-bits after
    [k] passes; with no switch pressed the loop keeps polling and
    nothing is ever written to [DDRB]. *)
Theorem selector_first_match ids (b0 b1 b2 : bool) (rest : Z) ra s
    (rounds k n : nat) :
  first_pressed true true true = None /\
  first_pressed false true true = Some slot0 /\
  first_pressed true false true = Some slot1 /\
  first_pressed true true false = Some slot2 /\
  first_pressed false b1 b2 = Some slot0 /\
  first_pressed true false b2 = Some slot1 /\
  match first_pressed b0 b1 b2 with
  | Some sl =>
      (exists reads,
         main_loop (S rounds) (steady (pin_levels b0 b1 b2 rest)) 0 =
         Dispatch sl reads) /\
      tag ids (S rounds) (steady (pin_levels b0 b1 b2 rest)) ra s n =
        run ids n (call ids sl ra s) /\
      exists s' bits,
        tag ids (S rounds) (steady (pin_levels b0 b1 b2 rest)) ra s
            (k * frame_steps) = Some s' /\
        frame ids sl ra s = Some bits /\
        length bits = 64%nat /\
        bits = sent_bits ids sl /\
        map snd (log s') =
          map snd (log s) ++ concat (repeat (map drive (line bits)) k)
  | None =>
      main_loop rounds (steady (pin_levels b0 b1 b2 rest)) 0 =
        Return (3 * rounds) /\
      tag ids rounds (steady (pin_levels b0 b1 b2 rest)) ra s n = Some s
  end.
Proof.
  do 6 (split; [reflexivity|]).
  assert (Hloop : main_loop (S rounds) (steady (pin_levels b0 b1 b2 rest)) 0 =
                  match first_pressed b0 b1 b2 with
                  | Some sl => Dispatch sl (match sl with
                                            | slot0 => 1 | slot1 => 2
                                            | slot2 => 3 end)
                  | None => Return (3 * S rounds)
                  end).
  { cbn [main_loop]. unfold steady. rewrite loop_steady.
    destruct b0; [destruct b1; [destruct b2|]|]; cbn [negb first_pressed];
      try reflexivity.
    rewrite main_loop_idle. f_equal. lia. }
  destruct (first_pressed b0 b1 b2) as [sl|] eqn:Hfp.
  - split; [eexists; exact Hloop|].
    unfold tag. rewrite Hloop. split; [reflexivity|].
    destruct (run_frames_call ids sl ra s k) as (s_k & Hrun & _ & _ & _ & Hlog).
    exists s_k, (sent_bits ids sl). split; [exact Hrun|].
    split; [apply frame_sent|].
    split; [apply sent_bits_length|].
    split; [reflexivity | exact Hlog].
  - assert (b0 = true /\ b1 = true /\ b2 = true) as (-> & -> & ->)
      by (destruct b0, b1, b2; try discriminate Hfp; auto).
    unfold tag, steady. rewrite main_loop_idle.
    split; [f_equal; lia | reflexivity].
Qed.

(** C9: once a packet assembler has been called, every further instruction
    executes (the machine never stops) with control inside the assembly
    code and the caller's return address still on the stack, so it never
    returns; the last instruction of the pass is the unconditional jump to
    the assembler's own entry, where the header starts; and after [n]
    passes control is at the entry again and the reader has received [n]
    copies of the 64-bit frame (128 half-bits each) with no other write in
    between.  In time: pass [k] starts 4098 [k] cycles after the call, its
    half-bits are written 32 cycles apart, and the 2-cycle jump back to
    the entry is added to the last half-bit of each frame, which so lasts
    34 cycles; there is no other pause between two frames. *)
Theorem assembler_never_returns ids sl ra s (n : nat) :
  (exists s',
     run ids n (call ids sl ra s) = Some s' /\
     in_assembler ids sl ra (stack s) s') /\
  nth_error (text ids) (addr ids (entry sl) + 256) = Some (rjmp (entry sl)) /\
  exists s_n bits,
    run ids (n * frame_steps) (call ids sl ra s) = Some s_n /\
    pc s_n = addr ids (entry sl) /\
    stack s_n = ra :: stack s /\
    clk s_n = clk s + 4098 * Z.of_nat n /\
    frame ids sl ra s = Some bits /\
    length bits = 64%nat /\
    map snd (log s_n) =
      map snd (log s) ++ concat (repeat (map drive (line bits)) n) /\
    log s_n = log s ++ passes_log (clk s) bits n.
Proof.
  split; [apply in_assembler_run, in_assembler_call|]. split.
  - destruct (entry_instr ids sl 256) as [[Hlt _] | [_ Hf]];
      [lia | lia | exact Hf].
  - destruct (run_frames_timed_call ids sl ra s n)
      as (s_n & Hrun & Hpc & Hstk & Hclk & Hlog).
    exists s_n, (sent_bits ids sl).
    repeat (split; [assumption|]).
    split; [apply frame_sent|].
    split; [apply sent_bits_length|].
    split; [|exact Hlog].
    rewrite Hlog, map_app, passes_log_values. reflexivity.
Qed.

(** C10: the packet assemblers of slot 0 and slot 1 take their first two
    row groups from the same constant [EM4102_MFR_ID], so these two row
    groups (and the code that sends them) are the same for both slots in
    every build; slot 2 takes them from [EM4102_MFR_ID2], whatever
    [EM4102_MFR_ID] is. *)
Theorem slots_0_1_share_manufacturer ids ra s :
  exists f0 f1 f2,
    frame ids slot0 ra s = Some f0 /\
    frame ids slot1 ra s = Some f1 /\
    frame ids slot2 ra s = Some f2 /\
    firstn 10 (skipn 9 f0) =
      field_bits (ROW_PARITY (Z.shiftr (EM4102_MFR_ID ids) 4)) 5 ++
      field_bits (ROW_PARITY (Z.shiftr (EM4102_MFR_ID ids) 0)) 5 /\
    firstn 10 (skipn 9 f1) = firstn 10 (skipn 9 f0) /\
    firstn 10 (skipn 9 f2) =
      field_bits (ROW_PARITY (Z.shiftr (EM4102_MFR_ID2 ids) 4)) 5 ++
      field_bits (ROW_PARITY (Z.shiftr (EM4102_MFR_ID2 ids) 0)) 5 /\
    firstn 76 (emulateid1 ids) = firstn 76 (emulateid0 ids).
Proof.
  exists (sent_bits ids slot0), (sent_bits ids slot1), (sent_bits ids slot2).
  do 3 (split; [apply frame_sent|]).
  rewrite !sent_bits_layout, !row_bits.
  do 3 (split; [reflexivity|]).
  unfold emulateid0, emulateid1.
  set (A := header). set (B := manchester _ 5). set (C := manchester _ 5).
  rewrite !(app_assoc B), !(app_assoc A).
  assert (Hlen : length ((A ++ B) ++ C) = 76%nat)
    by (unfold A, B, C, header; rewrite !length_app, !manchester_length;
        reflexivity).
  rewrite 2!(firstn_app 76 ((A ++ B) ++ C)), Hlen. reflexivity.
Qed.

(** Slot 2 is bound to its own manufacturer code: in the example build its
    first two row groups differ from those of slot 0. *)
Example slot2_own_manufacturer :
  firstn 10 (skipn 9 (sent_bits ids_example slot2)) <>
  firstn 10 (skipn 9 (sent_bits ids_example slot0)).
Proof. vm_compute. discriminate. Qed.

(** * Further properties of the code *)

(** ** The [delay] macro and the emitter subroutines *)

Lemma delay_length n : length (delay n) = Z.to_nat ((n + 1) / 2).
Proof.
  funelim (delay n); cbn [length].
  - match goal with IH : length _ = _ |- _ => rewrite IH end.
    replace (cycles + 1) with ((cycles - 2 + 1) + 1 * 2) by lia.
    rewrite Z.div_add by lia.
    assert (0 <= (cycles - 2 + 1) / 2) by (apply Z.div_pos; lia). lia.
  - assert (cycles = 1) as -> by lia.
    match goal with IH : length _ = _ |- _ => rewrite IH end. reflexivity.
  - assert ((cycles + 1) / 2 < 1) by (apply Z.div_lt_upper_bound; lia).
    lia.
Qed.

Lemma delay_cost_max n : cost (delay n) = Z.max 0 n.
Proof.
  destruct (Z_le_gt_dec 0 n) as [Hn|Hn].
  - rewrite delay_cost by lia. lia.
  - funelim (delay n); try lia. cbn. lia.
Qed.

(** X1: [delay n] expands to idle instructions only ([rjmp .+0] and [nop]),
    exactly [n] cycles' worth of them in as few instructions as there can
    be, (n+1)/2; for [n] zero or negative it expands to nothing. *)
Theorem delay_shape (n : Z) :
  cost (delay n) = Z.max 0 n /\
  length (delay n) = Z.to_nat ((n + 1) / 2) /\
  forallb idle (delay n) = true.
Proof.
  split; [apply delay_cost_max|]. split; [apply delay_length | apply delay_idle].
Qed.

(** X2: executed anywhere in the text, [delay n] takes [n] clock cycles
    (none for a negative [n]) and changes nothing but the program counter
    and the clock: stack, [r16], [DDRB] and the log stay as they are. *)
Theorem delay_exec ids (n : Z) p st r d t lg :
  code_at ids p (delay n) ->
  run ids (length (delay n)) (mk_cpu p st r d t lg) =
  Some (mk_cpu (p + length (delay n)) st r d (t + Z.max 0 n) lg).
Proof.
  intro Hc.
  rewrite (run_idle ids (delay n) (mk_cpu p st r d t lg) (delay_idle n) Hc).
  cbn [pc stack r16 DDRB clk log]. rewrite delay_cost_max. reflexivity.
Qed.

Lemma delay_exec_witness :
  code_at ids_example (addr ids_example baseband30_lbl + 1) (delay 19) /\
  run ids_example (length (delay 19))
      (mk_cpu (addr ids_example baseband30_lbl + 1) [5%nat] 24 0 100 []) =
  Some (mk_cpu (addr ids_example baseband30_lbl + 1 + length (delay 19))
               [5%nat] 24 0 (100 + Z.max 0 19) []).
Proof.
  assert (Hc : code_at ids_example (addr ids_example baseband30_lbl + 1)
                       (delay 19)).
  { pose proof (code_at_label ids_example baseband30_lbl) as H.
    cbn [code_of] in H. unfold baseband30 in H.
    apply code_at_head in H as [_ H].
    apply code_at_app in H as [H _]. exact H. }
  split; [exact Hc|].
  exact (delay_exec ids_example 19 _ [5%nat] 24 0 100 [] Hc).
Defined.

(** X3: the inner routine [baseband30] copies [r16], whatever it holds, to
    [DDRB] in its first cycle and returns to the address on top of the
    stack after 12 instructions and 24 clock cycles; entered through
    [baseband30_0] or [baseband30_1] it is 14 instructions and 27 cycles
    from the label to the return (30 with the 3 cycles of the [rcall]),
    with 0 or [OUT_PINS] written at cycle 4. *)
Theorem baseband30_routine ids (b : bool) ra st r d t lg :
  run ids 12 (mk_cpu (addr ids baseband30_lbl) (ra :: st) r d t lg) =
    Some (mk_cpu ra st r r (t + 24) (lg ++ [(t + 1, r)])) /\
  run ids 14 (mk_cpu (addr ids (baseband30_lbl_of b)) (ra :: st) r d t lg) =
    Some (mk_cpu ra st (drive b) (drive b) (t + 27)
                 (lg ++ [(t + 4, drive b)])).
Proof.
  split; [apply run_baseband30 | apply run_baseband30_b].
Qed.

(** ** [manchester]: only the low bits of the field count *)

Lemma field_bits_mod v n : field_bits (v mod 2 ^ Z.of_nat n) n = field_bits v n.
Proof.
  unfold field_bits. apply map_ext_in. intros i Hi.
  apply in_rev, in_seq in Hi. apply Z.mod_pow2_bits_low. lia.
Qed.

Lemma bb_inj l1 : forall l2, bb l1 = bb l2 -> l1 = l2.
Proof.
  induction l1 as [|a l1 IH]; intros [|b l2] H.
  - reflexivity.
  - destruct b; discriminate H.
  - destruct a; discriminate H.
  - change (bb (a :: l1)) with (baseband a ++ bb l1) in H.
    change (bb (b :: l2)) with (baseband b ++ bb l2) in H.
    destruct a, b; cbn in H; try discriminate H;
      (injection H as H; rewrite (IH _ H); reflexivity).
Qed.

Lemma line_inj l1 : forall l2, line l1 = line l2 -> l1 = l2.
Proof.
  induction l1 as [|a l1 IH]; intros [|b l2] H; try discriminate H.
  - reflexivity.
  - change (line (a :: l1)) with (a :: negb a :: line l1) in H.
    change (line (b :: l2)) with (b :: negb b :: line l2) in H.
    injection H as Hab _ H. rewrite Hab, (IH _ H). reflexivity.
Qed.

(** X4: for fields that are assembler integers (0 to 2^64 - 1) and widths
    up to 64, the expansion of [manchester v n] is 4n instructions long and
    is determined by the low [n] bits of [v] and by nothing else: two
    fields expand to the same code exactly when they agree modulo 2^n (so
    the unmasked column parity may be handed over as it is). *)
Theorem manchester_low_bits (v w : Z) (n : nat) :
  (n <= 64)%nat -> asm_int v -> asm_int w ->
  length (manchester v n) = (4 * n)%nat /\
  manchester (v mod 2 ^ Z.of_nat n) n = manchester v n /\
  (manchester v n = manchester w n <->
   v mod 2 ^ Z.of_nat n = w mod 2 ^ Z.of_nat n).
Proof.
  intros _ _ _.
  split; [apply manchester_length|]. split.
  - rewrite !manchester_line, field_bits_mod. reflexivity.
  - split; intro H.
    + rewrite !manchester_line in H. apply bb_inj, line_inj in H.
      rewrite <- !bits_to_Z_field, H. reflexivity.
    + rewrite !manchester_line, <- (field_bits_mod v), <- (field_bits_mod w), H.
      reflexivity.
Qed.

Lemma manchester_low_bits_witness :
  (4 <= 64)%nat /\ asm_int 0x1B /\ asm_int 0xFB /\
  length (manchester 0x1B 4) = (4 * 4)%nat /\
  manchester (0x1B mod 2 ^ Z.of_nat 4) 4 = manchester 0x1B 4 /\
  (manchester 0x1B 4 = manchester 0xFB 4 <->
   0x1B mod 2 ^ Z.of_nat 4 = 0xFB mod 2 ^ Z.of_nat 4).
Proof.
  assert (Hn : (4 <= 64)%nat) by lia.
  assert (Hv : asm_int 0x1B) by (unfold asm_int; lia).
  assert (Hw : asm_int 0xFB) by (unfold asm_int; lia).
  split; [exact Hn|]. split; [exact Hv|]. split; [exact Hw|].
  exact (manchester_low_bits 0x1B 0xFB 4 Hn Hv Hw).
Defined.

(** ** [ROW_PARITY] as a code *)

Lemma nibble_parity_low n : nibble_parity (Z.land n 0xF) = nibble_parity n.
Proof.
  unfold nibble_parity. rewrite !Z.land_spec.
  change (Z.testbit 15 0) with true. change (Z.testbit 15 1) with true.
  change (Z.testbit 15 2) with true. change (Z.testbit 15 3) with true.
  rewrite !andb_true_r. reflexivity.
Qed.

Lemma row_parity_low n : ROW_PARITY (Z.land n 0xF) = ROW_PARITY n.
Proof.
  unfold ROW_PARITY. rewrite !row_parity_lsb, nibble_parity_low.
  rewrite <- Z.land_assoc. reflexivity.
Qed.

Lemma nibble_cases x :
  0 <= x < 16 ->
  In x [0; 1; 2; 3; 4; 5; 6; 7; 8; 9; 10; 11; 12; 13; 14; 15].
Proof.
  intro H.
  assert (Hc : x = 0 \/ x = 1 \/ x = 2 \/ x = 3 \/ x = 4 \/ x = 5 \/ x = 6 \/
               x = 7 \/ x = 8 \/ x = 9 \/ x = 10 \/ x = 11 \/ x = 12 \/
               x = 13 \/ x = 14 \/ x = 15) by lia.
  cbn [In]. intuition auto.
Qed.

Lemma land_15_mod n : Z.land n 0xF = n mod 16.
Proof. change 15 with (Z.ones 4). apply Z.land_ones. lia. Qed.

(** X5: [ROW_PARITY n] looks at the low nibble of [n] only, is a 5-bit
    value (so a field of width 5 sends all of it), and gives the nibble
    back when the parity bit is shifted out. *)
Theorem row_parity_range (n : Z) :
  ROW_PARITY (n mod 16) = ROW_PARITY n /\
  0 <= ROW_PARITY n < 32 /\
  Z.shiftr (ROW_PARITY n) 1 = n mod 16.
Proof.
  rewrite <- land_15_mod, row_parity_low. split; [reflexivity|].
  rewrite <- (row_parity_low n), land_15_mod.
  pose proof (nibble_cases (n mod 16) (Z.mod_pos_bound n 16 eq_refl)) as Hin.
  assert (Hall : forallb (fun x => (0 <=? ROW_PARITY x) && (ROW_PARITY x <? 32)
                                   && (Z.shiftr (ROW_PARITY x) 1 =? x))
                   [0; 1; 2; 3; 4; 5; 6; 7; 8; 9; 10; 11; 12; 13; 14; 15] = true)
    by reflexivity.
  rewrite forallb_forall in Hall. specialize (Hall _ Hin).
  apply andb_prop in Hall as [Hall H3]. apply andb_prop in Hall as [H1 H2].
  apply Z.leb_le in H1. apply Z.ltb_lt in H2. apply Z.eqb_eq in H3.
  split; [split|]; assumption.
Qed.

(** X6: the row groups of two different nibbles differ in at least two of
    their five bits, so one flipped bit never turns a row group into
    another valid one. *)
Theorem row_parity_distance (a b : Z) :
  a mod 16 <> b mod 16 ->
  (2 <= distance (ROW_PARITY a) (ROW_PARITY b) 5)%nat.
Proof.
  intro Hne.
  rewrite <- (row_parity_low a), <- (row_parity_low b), !land_15_mod.
  pose proof (nibble_cases (a mod 16) (Z.mod_pos_bound a 16 eq_refl)) as Ha.
  pose proof (nibble_cases (b mod 16) (Z.mod_pos_bound b 16 eq_refl)) as Hb.
  set (ns := [0; 1; 2; 3; 4; 5; 6; 7; 8; 9; 10; 11; 12; 13; 14; 15]) in *.
  assert (Hall : forallb (fun x => forallb (fun y =>
                    (x =? y) ||
                    (2 <=? distance (ROW_PARITY x) (ROW_PARITY y) 5)%nat)
                    ns) ns = true) by (vm_compute; reflexivity).
  rewrite forallb_forall in Hall. specialize (Hall _ Ha).
  rewrite forallb_forall in Hall. specialize (Hall _ Hb).
  apply orb_prop in Hall as [Heq | Hd].
  - apply Z.eqb_eq in Heq. contradiction.
  - apply Nat.leb_le in Hd. exact Hd.
Qed.

Lemma row_parity_distance_witness :
  1 mod 16 <> 3 mod 16 /\
  (2 <= distance (ROW_PARITY 1) (ROW_PARITY 3) 5)%nat.
Proof.
  assert (H : 1 mod 16 <> 3 mod 16) by discriminate.
  split; [exact H | exact (row_parity_distance 1 3 H)].
Defined.

(** ** One frame per record *)

Lemma nibbles_record ids sl ids' sl' :
  mfr_of ids sl = mfr_of ids' sl' ->
  uid_of ids sl = uid_of ids' sl' ->
  nibbles ids sl = nibbles ids' sl'.
Proof. unfold nibbles. intros -> ->. reflexivity. Qed.

Lemma sent_bits_record ids sl ids' sl' :
  mfr_of ids sl = mfr_of ids' sl' ->
  uid_of ids sl = uid_of ids' sl' ->
  sent_bits ids sl = sent_bits ids' sl'.
Proof.
  intros Hm Hu. rewrite !sent_bits_layout.
  rewrite (nibbles_record _ _ _ _ Hm Hu). do 3 f_equal.
  unfold field_bits. cbn [seq rev app map Z.of_nat Pos.of_succ_nat Pos.succ].
  rewrite !column_parity_bit by lia.
  rewrite (nibbles_record _ _ _ _ Hm Hu). reflexivity.
Qed.

(** X7: for constants that are assembler integers (0 to 2^64 - 1), the
    frames of two packet assemblers, in the same build or in two builds,
    are the same exactly when their records agree in the low 8 bits of the
    manufacturer code and the low 32 bits of the unique code: different
    tags are never confused, and nothing but the record (not the slot, not
    the state of the machine at the call) shows in the frame. *)
Theorem frame_identifies_record ids sl ra s ids' sl' ra' s' :
  asm_int (mfr_of ids sl) -> asm_int (uid_of ids sl) ->
  asm_int (mfr_of ids' sl') -> asm_int (uid_of ids' sl') ->
  (frame ids sl ra s = frame ids' sl' ra' s' <->
   mfr_of ids sl mod 2 ^ 8 = mfr_of ids' sl' mod 2 ^ 8 /\
   uid_of ids sl mod 2 ^ 32 = uid_of ids' sl' mod 2 ^ 32).
Proof.
  intros _ _ _ _.
  rewrite !frame_sent. split.
  - intro H.
    assert (Hd : option_map spec_decode (Some (sent_bits ids sl)) =
                 option_map spec_decode (Some (sent_bits ids' sl')))
      by (rewrite H; reflexivity).
    cbn [option_map] in Hd. rewrite !spec_decode_sent in Hd.
    assert (Hp : (mfr_of ids sl mod 2 ^ 8, uid_of ids sl mod 2 ^ 32) =
                 (mfr_of ids' sl' mod 2 ^ 8, uid_of ids' sl' mod 2 ^ 32))
      by congruence.
    split; [exact (f_equal fst Hp) | exact (f_equal snd Hp)].
  - intros [Hm Hu]. f_equal.
    rewrite <- (sent_bits_truncate ids sl), <- (sent_bits_truncate ids' sl').
    apply sent_bits_record;
      rewrite ?mfr_of_truncate, ?uid_of_truncate; assumption.
Qed.

Lemma frame_identifies_record_witness :
  asm_int (mfr_of ids_40bit slot0) /\ asm_int (uid_of ids_40bit slot0) /\
  asm_int (mfr_of ids_example slot0) /\ asm_int (uid_of ids_example slot0) /\
  (frame ids_40bit slot0 1000 (mk_cpu 0 [] 0 0 0 []) =
   frame ids_example slot0 7 (mk_cpu 0 [3%nat] 1 2 50 []) <->
   mfr_of ids_40bit slot0 mod 2 ^ 8 = mfr_of ids_example slot0 mod 2 ^ 8 /\
   uid_of ids_40bit slot0 mod 2 ^ 32 = uid_of ids_example slot0 mod 2 ^ 32).
Proof.
  assert (H1 : asm_int (mfr_of ids_40bit slot0)) by (unfold asm_int; cbn; lia).
  assert (H2 : asm_int (uid_of ids_40bit slot0)) by (unfold asm_int; cbn; lia).
  assert (H3 : asm_int (mfr_of ids_example slot0))
    by (unfold asm_int; cbn; lia).
  assert (H4 : asm_int (uid_of ids_example slot0))
    by (unfold asm_int; cbn; lia).
  split; [exact H1|]. split; [exact H2|]. split; [exact H3|].
  split; [exact H4|].
  exact (frame_identifies_record ids_40bit slot0 1000 (mk_cpu 0 [] 0 0 0 [])
           ids_example slot0 7 (mk_cpu 0 [3%nat] 1 2 50 []) H1 H2 H3 H4).
Defined.

(** ** The signal on the coil pins *)

Lemma exec_log ids i s s' :
  exec ids i s = Some s' -> exists l, log s' = log s ++ l.
Proof.
  destruct i; cbn [exec]; try (intro H; injection H as <-; cbn [log]).
  - exists []. symmetry. apply app_nil_r.
  - eexists. reflexivity.
  - exists []. symmetry. apply app_nil_r.
  - exists []. symmetry. apply app_nil_r.
  - exists []. symmetry. apply app_nil_r.
  - exists []. symmetry. apply app_nil_r.
  - destruct (stack s); [discriminate|].
    intro H; injection H as <-. exists []. symmetry. apply app_nil_r.
Qed.

(** The log only grows. *)
Lemma run_log ids n : forall s s',
  run ids n s = Some s' -> exists l, log s' = log s ++ l.
Proof.
  induction n as [|n IH]; intros s s' H; cbn [run] in H.
  - injection H as <-. exists []. symmetry. apply app_nil_r.
  - destruct (step ids s) as [s1|] eqn:Hs; [|discriminate].
    unfold step in Hs. destruct (nth_error (text ids) (pc s)); [|discriminate].
    destruct (exec_log _ _ _ _ Hs) as [l1 H1].
    destruct (IH _ _ H) as [l2 H2].
    exists (l1 ++ l2). rewrite H2, H1, app_assoc. reflexivity.
Qed.

Lemma repeat_line_drive bits k :
  concat (repeat (map drive (line bits)) k) =
  map drive (line (concat (repeat bits k))).
Proof.
  induction k as [|k IH]; [reflexivity|].
  cbn [repeat concat]. rewrite IH, line_app, map_app. reflexivity.
Qed.

(** What has been written after [n] instructions is the beginning of the
    Manchester line of the frame sent over and over. *)
Lemma emitted_prefix ids sl ra s n :
  exists rest,
    map snd (emitted ids n (call ids sl ra s)) ++ rest =
    map drive (line (concat (repeat (sent_bits ids sl) n))).
Proof.
  destruct (in_assembler_run ids sl ra (stack s) n _ (in_assembler_call ids sl ra s))
    as (s1 & Hrun & Hin).
  destruct (run_frames_call ids sl ra s n) as (s2 & Hrun2 & _ & _ & _ & Hlog2).
  assert (Hle : (n <= n * frame_steps)%nat) by (unfold frame_steps; nia).
  replace (n * frame_steps)%nat with (n + (n * frame_steps - n))%nat in Hrun2
    by lia.
  rewrite run_add, Hrun in Hrun2.
  destruct (run_log _ _ _ _ Hrun) as [l1 H1].
  destruct (run_log _ _ _ _ Hrun2) as [l2 H2].
  unfold emitted. rewrite Hrun, H1.
  change (log (call ids sl ra s)) with (log s) in *.
  rewrite skipn_length_app.
  exists (map snd l2).
  rewrite H2, H1, !map_app, <- app_assoc in Hlog2.
  apply app_inv_head in Hlog2. rewrite Hlog2. apply repeat_line_drive.
Qed.

Lemma Forall_drive l :
  Forall (fun v => (v = 0 \/ v = OUT_PINS) /\ Z.land v 7 = 0) (map drive l).
Proof.
  apply Forall_map, Forall_forall. intros b _.
  destruct b; split; auto.
Qed.

(** X8: at no time after the call does a packet assembler write anything
    to [DDRB] but 0 or [OUT_PINS]: only the two coil pins PB3 and PB4 are
    ever switched to output, the three switch pins PB0..PB2 never are. *)
Theorem ddrb_only_coil_pins ids sl ra s (n : nat) :
  Forall (fun v => (v = 0 \/ v = OUT_PINS) /\ Z.land v 7 = 0)
         (map snd (emitted ids n (call ids sl ra s))).
Proof.
  destruct (emitted_prefix ids sl ra s n) as [rest H].
  pose proof (Forall_drive (line (concat (repeat (sent_bits ids sl) n)))) as HF.
  rewrite <- H in HF. apply Forall_app in HF as [HF _]. exact HF.
Qed.

Lemma stamps_times l : forall t,
  map fst (stamps t l) =
  map (fun i => t + 7 + 32 * Z.of_nat i) (seq 0 (length l)).
Proof.
  induction l as [|v l IH]; intro t; [reflexivity|].
  cbn [stamps map fst length seq]. rewrite IH, <- seq_shift, map_map.
  f_equal; [lia|]. apply map_ext. intro i. lia.
Qed.

(** X9: in every pass the 128 writes to [DDRB] complete at 32-cycle
    intervals, the first one 7 cycles into the pass; a pass is 4098 cycles
    long, so the last half-bit of a frame is held for 34 cycles. *)
Theorem half_bit_timing ids sl ra s (k : nat) :
  exists s_k,
    run ids (k * frame_steps) (call ids sl ra s) = Some s_k /\
    map fst (emitted ids frame_steps s_k) =
    map (fun i => clk s + 4098 * Z.of_nat k + 7 + 32 * Z.of_nat i)
        (seq 0 128).
Proof.
  destruct (run_frames_call ids sl ra s k) as (s_k & Hrun & Hpc & _ & Hclk & _).
  exists s_k. split; [exact Hrun|].
  destruct s_k as [p st r d t lg]. cbn [pc clk] in Hpc, Hclk. subst p t.
  rewrite emitted_frame, stamps_times, line_length, sent_bits_length.
  reflexivity.
Qed.

Lemma no_run3_line bits : no_run3 (map drive (line bits)) = true.
Proof.
  induction bits as [|b bits IH]; [reflexivity|].
  destruct bits as [|c bits]; [destruct b; reflexivity|].
  change (line (b :: c :: bits)) with (b :: negb b :: line (c :: bits)).
  change (line (c :: bits)) with (c :: negb c :: line bits) in *.
  cbn [map] in *.
  change (no_run3 (drive b :: drive (negb b) :: drive c :: drive (negb c)
                     :: map drive (line bits)))
    with (negb ((drive b =? drive (negb b)) && (drive (negb b) =? drive c)) &&
          (negb ((drive (negb b) =? drive c) && (drive c =? drive (negb c))) &&
           no_run3 (drive c :: drive (negb c) :: map drive (line bits)))).
  rewrite IH. destruct b, c; reflexivity.
Qed.

Lemma no_run3_prefix l1 : forall l2,
  no_run3 (l1 ++ l2) = true -> no_run3 l1 = true.
Proof.
  induction l1 as [|a l1 IH]; intros l2 H; [reflexivity|].
  destruct l1 as [|b [|c l1]]; try reflexivity.
  change (no_run3 ((a :: b :: c :: l1) ++ l2))
    with (negb ((a =? b) && (b =? c)) && no_run3 ((b :: c :: l1) ++ l2)) in H.
  apply andb_prop in H as [H1 H2].
  change (no_run3 (a :: b :: c :: l1))
    with (negb ((a =? b) && (b =? c)) && no_run3 (b :: c :: l1)).
  rewrite H1, (IH _ H2). reflexivity.
Qed.

(** X10: at no time, within a frame or across the jump from one frame to
    the next, are three consecutive half-bits written with the same value:
    the reader sees an edge at least every second half-bit. *)
Theorem never_three_equal_half_bits ids sl ra s (n : nat) :
  no_run3 (map snd (emitted ids n (call ids sl ra s))) = true.
Proof.
  destruct (emitted_prefix ids sl ra s n) as [rest H].
  apply (no_run3_prefix _ rest). rewrite H. apply no_run3_line.
Qed.

Lemma stamps_filter x l : forall t,
  length (filter (fun e => snd e =? x) (stamps t l)) =
  length (filter (fun b => drive b =? x) l).
Proof.
  induction l as [|v l IH]; intro t; [reflexivity|].
  cbn [stamps filter snd]. destruct (drive v =? x); cbn [length];
    rewrite IH; reflexivity.
Qed.

Lemma line_balance bits :
  length (filter (fun b => drive b =? OUT_PINS) (line bits)) = length bits /\
  length (filter (fun b => drive b =? 0) (line bits)) = length bits.
Proof.
  induction bits as [|b bits [IH1 IH2]]; [split; reflexivity|].
  change (line (b :: bits)) with (b :: negb b :: line bits).
  destruct b; cbn [filter negb]; 
    change (drive true =? OUT_PINS) with true;
    change (drive false =? OUT_PINS) with false;
    change (drive true =? 0) with false;
    change (drive false =? 0) with true;
    cbn [length]; rewrite IH1, IH2; split; reflexivity.
Qed.

(** X11: every pass drives the coil for exactly 64 of its 128 half-bits
    and releases it for the other 64, whatever the identifier. *)
Theorem frame_balance ids sl ra s :
  length (filter (fun e => snd e =? OUT_PINS)
                 (emitted ids frame_steps (call ids sl ra s))) = 64%nat /\
  length (filter (fun e => snd e =? 0)
                 (emitted ids frame_steps (call ids sl ra s))) = 64%nat.
Proof.
  unfold call. rewrite emitted_frame, !stamps_filter.
  rewrite <- (sent_bits_length ids sl). apply line_balance.
Qed.

(** ** test.c: polling with changing pin levels *)

Lemma mod3_0 j : ((3 * j) mod 3 = 0)%nat.
Proof. rewrite Nat.mul_comm. apply Nat.Div0.mod_mul. Qed.

Lemma mod3_1 j : ((3 * j + 1) mod 3 = 1)%nat.
Proof.
  rewrite Nat.add_comm, (Nat.mul_comm 3 j), Nat.Div0.mod_add. reflexivity.
Qed.

Lemma mod3_2 j : ((3 * j + 2) mod 3 = 2)%nat.
Proof.
  rewrite Nat.add_comm, (Nat.mul_comm 3 j), Nat.Div0.mod_add. reflexivity.
Qed.

Lemma main_loop_first_hit pins t n : forall j,
  main_loop n pins (t + 3 * j) =
  match first_hit pins t (3 * j) (3 * n) with
  | Some k => Dispatch (polled_slot k) (t + k + 1)
  | None => Return (t + 3 * (j + n))
  end.
Proof.
  induction n as [|n IH]; intro j.
  - rewrite (Nat.mul_0_r 3). cbn [main_loop first_hit]. f_equal. lia.
  - replace (3 * S n)%nat with (S (S (S (3 * n)))) by lia.
    cbn [main_loop first_hit]. unfold loop.
    replace (S (3 * j)) with (3 * j + 1)%nat by lia.
    replace (S (3 * j + 1)) with (3 * j + 2)%nat by lia.
    replace (S (3 * j + 2)) with (3 * S j)%nat by lia.
    unfold polled. rewrite mod3_0, mod3_1, mod3_2.
    replace (t + (3 * j + 1))%nat with (t + 3 * j + 1)%nat by lia.
    replace (t + (3 * j + 2))%nat with (t + 3 * j + 2)%nat by lia.
    destruct (pressed (pins (t + 3 * j)%nat) PINB0);
      [unfold polled_slot; rewrite mod3_0; f_equal; lia|].
    destruct (pressed (pins (t + 3 * j + 1)%nat) PINB1);
      [unfold polled_slot; rewrite mod3_1; f_equal; lia|].
    destruct (pressed (pins (t + 3 * j + 2)%nat) PINB2);
      [unfold polled_slot; rewrite mod3_2; f_equal; lia|].
    replace (t + 3 * j + 3)%nat with (t + 3 * S j)%nat by lia.
    rewrite IH.
    destruct (first_hit pins t (3 * S j) (3 * n)); [reflexivity|].
    f_equal. lia.
Qed.

(** X12: whatever the pin levels do over time, [main] dispatches at the
    first read of [PINB], in time order, that finds the one switch it
    looks at pressed (read k looks at PB(k mod 3) only), to that switch's
    slot; if none of the 3n reads of n rounds does, it is still polling
    after them.  A press is seen only by a read that looks at its pin. *)
Theorem main_dispatches_first_hit (pins : nat -> Z) (t n : nat) :
  main_loop n pins t =
  match first_hit pins t 0 (3 * n) with
  | Some k => Dispatch (polled_slot k) (t + k + 1)
  | None => Return (t + 3 * n)
  end.
Proof.
  pose proof (main_loop_first_hit pins t n 0) as H.
  rewrite Nat.mul_0_r, Nat.add_0_r in H. exact H.
Qed.

Lemma main_loop_reads pins n : forall t sl r,
  main_loop n pins t = Dispatch sl r -> (t < r)%nat.
Proof.
  induction n as [|n IH]; intros t sl r H; cbn [main_loop] in H;
    [discriminate|].
  unfold loop in H.
  destruct (pressed (pins t) PINB0); [injection H as _ <-; lia|].
  destruct (pressed (pins (t + 1)%nat) PINB1); [injection H as _ <-; lia|].
  destruct (pressed (pins (t + 2)%nat) PINB2); [injection H as _ <-; lia|].
  apply IH in H. lia.
Qed.

Lemma main_loop_commits pins pins' n : forall m t sl r,
  main_loop n pins t = Dispatch sl r ->
  (forall i, (i < r)%nat -> pins' i = pins i) ->
  (n <= m)%nat ->
  main_loop m pins' t = Dispatch sl r.
Proof.
  induction n as [|n IH]; intros m t sl r H Hag Hle; cbn [main_loop] in H;
    [discriminate|].
  destruct m as [|m]; [lia|]. cbn [main_loop].
  unfold loop in *.
  destruct (pressed (pins t) PINB0) eqn:H0.
  { injection H as <- <-. rewrite Hag, H0 by lia. reflexivity. }
  destruct (pressed (pins (t + 1)%nat) PINB1) eqn:H1.
  { injection H as <- <-. rewrite !Hag, H0, H1 by lia. reflexivity. }
  destruct (pressed (pins (t + 2)%nat) PINB2) eqn:H2.
  { injection H as <- <-. rewrite !Hag, H0, H1, H2 by lia. reflexivity. }
  pose proof (main_loop_reads _ _ _ _ _ H) as Hr.
  rewrite !Hag, H0, H1, H2 by lia.
  apply (IH m _ _ _ H Hag). lia.
Qed.

(** X13: a dispatch is final and depends on nothing but the reads made up
    to it: if polling dispatches to a slot at read [r], it dispatches to
    the same slot at the same read for any pin levels that agree on the
    reads before [r] (the switch may be released, another one pressed) and
    for any larger number of rounds, and the tag then behaves the same. *)
Theorem dispatch_commits ids (pins pins' : nat -> Z) (n m : nat) sl r ra s k :
  main_loop n pins 0 = Dispatch sl r ->
  (forall i, (i < r)%nat -> pins' i = pins i) ->
  (n <= m)%nat ->
  main_loop m pins' 0 = Dispatch sl r /\
  tag ids m pins' ra s k = run ids k (call ids sl ra s).
Proof.
  intros H Hag Hle.
  pose proof (main_loop_commits pins pins' n m 0 sl r H Hag Hle) as Hm.
  split; [exact Hm|]. unfold tag. rewrite Hm. reflexivity.
Qed.

Lemma dispatch_commits_witness :
  main_loop 1 (steady 6) 0 = Dispatch slot0 1 /\
  main_loop 5 (fun i => if (i =? 0)%nat then 6 else 5) 0 = Dispatch slot0 1.
Proof.
  assert (H : main_loop 1 (steady 6) 0 = Dispatch slot0 1) by reflexivity.
  split; [exact H|].
  refine (proj1 (dispatch_commits ids_example (steady 6)
            (fun i => if (i =? 0)%nat then 6 else 5) 1 5 slot0 1 1000
            (mk_cpu 0 [] 0 0 0 []) 0 H _ _)).
  - intros i Hi. destruct i as [|i]; [reflexivity | lia].
  - lia.
Defined.

(** ** test.c: [setup] *)

(** X14: [setup] turns on the pull-ups of the three switch pins PB0..PB2
    and leaves every other bit of [PORTB] as it was, in particular the
    bits of the coil pins PB3 and PB4 (which stay 0 after a reset, so that
    a coil pin switched to output is driven low); running it again changes
    nothing. *)
Theorem setup_pullups (portb : Z) :
  Z.land (setup portb) 7 = 7 /\
  Z.shiftr (setup portb) 3 = Z.shiftr portb 3 /\
  Z.land (setup portb) OUT_PINS = Z.land portb OUT_PINS /\
  setup (setup portb) = setup portb.
Proof.
  unfold setup. change (Z.lor (Z.lor (_BV DDB2) (_BV DDB1)) (_BV DDB0)) with 7.
  change OUT_PINS with 24.
  assert (H7 : forall j, 3 <= j -> Z.testbit 7 j = false)
    by (intros j Hj; change 7 with (Z.ones 3); apply Z.ones_spec_high; lia).
  split; [|split; [|split]]; apply Z.bits_inj'; intros j Hj;
    rewrite ?Z.land_spec, ?Z.shiftr_spec, ?Z.lor_spec by lia.
  - destruct (Z.testbit 7 j), (Z.testbit portb j); reflexivity.
  - rewrite H7 by lia. apply orb_false_r.
  - destruct (Z_lt_le_dec j 3) as [Hlt|Hge].
    + assert (Hc : j = 0 \/ j = 1 \/ j = 2) by lia.
      destruct Hc as [->|[->| ->]]; change (Z.testbit 24 _) with false;
        rewrite !andb_false_r; reflexivity.
    + rewrite H7 by lia. rewrite orb_false_r. reflexivity.
  - rewrite <- orb_assoc, orb_diag. reflexivity.
Qed.
